(** * Prerender: a pool of Chrome pages behind [render]

    Shallow embedding of [prerender/prerender.py].  The coroutines of class
    [Prerender] are written in a resumption monad: a computation runs on the
    pool state until it either finishes (with a value or a raised exception)
    or suspends on an awaited call, handing the pool state to the scheduler.
    The same terms are then read in two ways: run to completion against a
    script of replies (one caller at a time), or interleaved by a cooperative
    scheduler (several [render] calls in flight).

    The calls of [logger] change nothing that the code reads and are left
    out; [pages()] and [version()] only pass a question on to the Driver. *)

From Stdlib Require Import ZArith Lia.
From stdpp Require Import base gmap sets list strings.

#[local] Set Warnings "-clear-no-such-hyp".

Local Open Scope string_scope.
Local Open Scope list_scope.
Local Open Scope Z_scope.

(** ** Data *)

(** A [Page] object is used by reference: it sits in the set [_pages], in the
    queue [_idle_pages] and in the local variable of a [render] call at once.
    [ref] is the identity of the object. *)
Definition ref := positive.

(** The attributes of a [chromerdp.Page] that [prerender.py] reads:
    [page.id], [page.websocket] (tested for truth only) and [page.iteration]. *)
Record Page := mkPage {
  page_id : string;
  websocket : bool;
  iteration : Z;
}.

(** Exceptions, by the classes the [except] clauses tell apart. *)
Inductive exn :=
| InvalidHandshake                       (* websockets.exceptions.InvalidHandshake *)
| ConnectionClosed                       (* websockets.exceptions.ConnectionClosed *)
| RuntimeError (msg : string)
| TimeoutError                           (* asyncio.TimeoutError *)
| TemporaryBrowserFailure (msg : string)
| CancelledError                         (* asyncio.CancelledError *)
| QueueEmpty                             (* asyncio.QueueEmpty *)
| ValueError (msg : string)
| KeyError
| OtherError (name : string).            (* any other class, e.g. OSError *)

(** What a coroutine can be waiting for. *)
Inductive op :=
| NewPage                                (* self._rdp.new_page() *)
| Attach (p : ref)                       (* page.attach() *)
| Listen (p : ref)                       (* page.listen() *)
| Navigate (p : ref) (url : string)      (* page.navigate(url) *)
| Wait (p : ref)                         (* page.wait() *)
| Detach (p : ref)                       (* page.detach() *)
| Close (p : ref)                        (* page.close() *)
| Sleep (ms : Z)                         (* asyncio.sleep *)
| QueueGet                               (* self._idle_pages.get() *)
| RdpShutdown.                           (* self._rdp.shutdown() *)

(** Durations are in milliseconds. *)
Inductive call :=
| Plain (o : op)                         (* await o *)
| WaitFor (o : op) (timeout : Z).        (* await asyncio.wait_for(o, timeout) *)

Definition op_of (c : call) : op :=
  match c with Plain o => o | WaitFor o _ => o end.

(** What the awaited call comes back with: a value (the HTML of [page.wait()],
    the id of the tab made by [new_page()], unused elsewhere) or an exception.
    An expired [wait_for] comes back as [RRaise TimeoutError]; a cancellation
    of the waiting task as [RRaise CancelledError]. *)
Inductive reply :=
| ROk (v : string)
| RRaise (e : exn).

Definition is_ok (r : reply) : bool :=
  match r with ROk _ => true | RRaise _ => false end.

(** The state of a [Prerender] object: [self._pages], [self._idle_pages]
    (the deque of the [asyncio.Queue], oldest first, and its counter of
    unfinished tasks), and the Page objects reachable from them. *)
Record Pool := mkPool {
  _pages : gset ref;
  _idle_pages : list ref;
  _unfinished_tasks : nat;
  heap : gmap ref Page;
}.

(** The local variables of a coroutine that its handlers assign. *)
Record Locals := mkLocals {
  reopen : bool;
}.

(** ** The resumption monad *)

(** [Susp sh c s k]: suspended on [c] with the pool left as [s]; [k] takes the
    reply and the pool as it is when the scheduler resumes the coroutine.
    [sh] tells that the suspension is inside [asyncio.shield]. *)
Inductive Res (A : Type) : Type :=
| Done (r : exn + A) (l : Locals) (s : Pool)
| Susp (sh : bool) (c : call) (s : Pool) (k : reply → Pool → Res A).
Arguments Done {A} r l s.
Arguments Susp {A} sh c s k.

Definition M (A : Type) : Type := Locals → Pool → Res A.

Definition ret {A} (a : A) : M A := λ l s, Done (inr a) l s.
Definition raise {A} (e : exn) : M A := λ l s, Done (inl e) l s.

Fixpoint bind_res {A B} (m : Res A) (f : A → M B) : Res B :=
  match m with
  | Done (inr a) l s => f a l s
  | Done (inl e) l s => Done (inl e) l s
  | Susp sh c s k => Susp sh c s (λ r s', bind_res (k r s') f)
  end.
Definition bind {A B} (m : M A) (f : A → M B) : M B :=
  λ l s, bind_res (m l s) f.

Notation "x <- m ;; k" := (bind m (λ x, k))
  (at level 100, m at next level, k at level 200, right associativity).
Notation "m ;;; k" := (bind m (λ _, k))
  (at level 100, k at level 200, right associativity).

(** [try: m except e: h e].  A handler that does not match re-raises. *)
Fixpoint catch_res {A} (m : Res A) (h : exn → M A) : Res A :=
  match m with
  | Done (inl e) l s => h e l s
  | Done (inr a) l s => Done (inr a) l s
  | Susp sh c s k => Susp sh c s (λ r s', catch_res (k r s') h)
  end.
Definition try_except {A} (m : M A) (h : exn → M A) : M A :=
  λ l s, catch_res (m l s) h.

(** [try: m finally: f].  [f] runs however [m] ended; when [f] itself raises,
    that exception replaces the outcome of [m]. *)
Fixpoint finally_res {A} (m : Res A) (f : M unit) : Res A :=
  match m with
  | Done r l s => bind_res (f l s) (λ _ l' s', Done r l' s')
  | Susp sh c s k => Susp sh c s (λ r s', finally_res (k r s') f)
  end.
Definition try_finally {A} (m : M A) (f : M unit) : M A :=
  λ l s, finally_res (m l s) f.

(** [asyncio.shield(m)]: [m] runs as a task of its own, which a cancellation
    of the caller does not reach. *)
Fixpoint shield_res {A} (m : Res A) : Res A :=
  match m with
  | Done r l s => Done r l s
  | Susp _ c s k => Susp true c s (λ r s', shield_res (k r s'))
  end.
Definition shield {A} (m : M A) : M A := λ l s, shield_res (m l s).

(** State access. *)
Definition get_pool : M Pool := λ l s, Done (inr s) l s.
Definition get_reopen : M bool := λ l s, Done (inr (reopen l)) l s.
Definition set_reopen (b : bool) : M unit := λ _ s, Done (inr tt) (mkLocals b) s.

(** Python's [needle in hay] on [str]. *)
Fixpoint contains (needle hay : string) : bool :=
  String.prefix needle hay ||
  match hay with
  | EmptyString => false
  | String _ hay' => contains needle hay'
  end.

(** ** One caller at a time *)

(** What the scheduler saw of a coroutine: each suspension with its reply. *)
Definition event : Type := bool * call * reply.

Record Outcome (A : Type) := mkOutcome {
  result : exn + A;        (* returned value or raised exception *)
  locals : Locals;
  final : Pool;
  trace : list event;
  rest : list reply;       (* replies not consumed *)
}.
Arguments mkOutcome {A} result locals final trace rest.
Arguments result {A} o.
Arguments locals {A} o.
Arguments final {A} o.
Arguments trace {A} o.
Arguments rest {A} o.

Definition log {A} (ev : event) (o : Outcome A) : Outcome A :=
  mkOutcome (result o) (locals o) (final o) (ev :: trace o) (rest o).

(** With no other coroutine around, a getter on a queue that has an item is
    woken at once, and a getter on an empty queue stays until its timer
    expires. *)
Definition queue_reply (s : Pool) : reply :=
  match _idle_pages s with
  | [] => RRaise TimeoutError
  | _ :: _ => ROk ""
  end.

(** [run m script]: resume [m] until it is done; calls on the Driver and on
    Pages are answered from [script], in order.  [None] when the script ends
    before the coroutine does. *)
Fixpoint run {A} (m : Res A) (script : list reply) : option (Outcome A) :=
  match m with
  | Done r l s => Some (mkOutcome r l s [] script)
  | Susp sh c s k =>
      match op_of c with
      | QueueGet =>
          let r := queue_reply s in
          log (sh, c, r) <$> run (k r s) script
      | _ =>
          match script with
          | [] => None
          | r :: script' => log (sh, c, r) <$> run (k r s) script'
          end
      end
  end.

(** Bookkeeping for runs made of several parts. *)
Definition prepend {A} (tr : list event) (o : Outcome A) : Outcome A :=
  mkOutcome (result o) (locals o) (final o) (tr ++ trace o) (rest o).

Definition shielded : event → event := λ '(_, c, r), (true, c, r).

Definition after {A B} (o : option (Outcome A))
    (g : Outcome A → option (Outcome B)) : option (Outcome B) :=
  match o with
  | Some o1 => prepend (trace o1) <$> g o1
  | None => None
  end.

Definition as_shielded {A} (o : Outcome A) : Outcome A :=
  mkOutcome (result o) (locals o) (final o) (shielded <$> trace o) (rest o).

(** The outcome of [try: ... finally: f]: that of the block, unless [f]
    raised. *)
Definition merge {A} (o1 : Outcome A) (o2 : Outcome unit) : Outcome A :=
  mkOutcome (match result o2 with inl e => inl e | inr _ => result o1 end)
            (locals o2) (final o2) (trace o2) (rest o2).

(** Modelled from the spec: the methods of [chromerdp.Page] are not in this
    file.  "attach() — opens transport", "detach() — closes transport, tab
    remains allocated"; nothing else is said to touch an attribute, and a
    call that raises is taken to leave the Page as it was. *)
Definition spec_page_eff (o : op) (r : reply) (pg : Page) : Page :=
  match o, r with
  | Attach _, ROk _ => mkPage (page_id pg) true (iteration pg)
  | Detach _, ROk _ => mkPage (page_id pg) false (iteration pg)
  | _, _ => pg
  end.

(** The state [__init__] leaves, lines 24-25. *)
Definition init_pool : Pool := mkPool ∅ [] 0 ∅.
Definition init_locals : Locals := mkLocals false.

(** ** What the module is given *)

(** The module constants, read from the environment at import
    ([PRERENDER_TIMEOUT] in seconds), and the Page class of [chromerdp]: its
    methods are not in this file, so what a call of one of them does to the
    attributes of its Page object, given how it came back, is a parameter. *)
Class Env := {
  PRERENDER_TIMEOUT : Z;
  CONCURRENCY_PER_WORKER : Z;
  MAX_ITERATIONS : Z;
  page_eff : op → reply → Page → Page;
}.

Section Prerender.
Context `{Env}.

Definition target (o : op) : option ref :=
  match o with
  | Attach p | Listen p | Navigate p _ | Wait p | Detach p | Close p => Some p
  | NewPage | Sleep _ | QueueGet | RdpShutdown => None
  end.

Definition effect (c : call) (r : reply) (s : Pool) : Pool :=
  match target (op_of c) with
  | Some p => mkPool (_pages s) (_idle_pages s) (_unfinished_tasks s)
                     (alter (page_eff (op_of c) r) p (heap s))
  | None => s
  end.

(** [await c]: suspend on [c]; on resumption the callee's effect on its Page
    has happened and the reply is returned or raised. *)
Definition await (c : call) : M string :=
  λ l s, Susp false c s (λ r s',
    match r with
    | ROk v => Done (inr v) l (effect c r s')
    | RRaise e => Done (inl e) l (effect c r s')
    end).

Definition wait_for (o : op) (timeout : Z) : M string := await (WaitFor o timeout).

(** *** asyncio.Queue (unbounded) *)

(** [Queue.get_nowait()] *)
Definition get_nowait : M ref :=
  λ l s,
    match _idle_pages s with
    | [] => Done (inl QueueEmpty) l s
    | p :: q => Done (inr p) l (mkPool (_pages s) q (_unfinished_tasks s) (heap s))
    end.

(** [asyncio.wait_for(self._idle_pages.get(), timeout)].  [get] is
    [while self.empty(): await getter] followed by [get_nowait()]: the
    scheduler wakes the getter when the queue has an item (see [admissible]
    and [run] below), and the timer of [wait_for] raises [TimeoutError]. *)
Definition wait_for_get (timeout : Z) : M ref :=
  λ l s, Susp false (WaitFor QueueGet timeout) s (λ r s',
    match r with
    | ROk _ => get_nowait l s'
    | RRaise e => Done (inl e) l s'
    end).

(** [await self._idle_pages.put(page)]: the queue has no bound, so [put] never
    waits. *)
Definition put (p : ref) : M unit :=
  λ l s, Done (inr tt) l
    (mkPool (_pages s) (_idle_pages s ++ [p]) (S (_unfinished_tasks s)) (heap s)).

(** [Queue.task_done()] *)
Definition task_done : M unit :=
  λ l s,
    match _unfinished_tasks s with
    | O => Done (inl (ValueError "task_done() called too many times")) l s
    | S n => Done (inr tt) l (mkPool (_pages s) (_idle_pages s) n (heap s))
    end.

(** *** The set [self._pages] *)

Definition pages_add (p : ref) : M unit :=
  λ l s, Done (inr tt) l
    (mkPool ({[p]} ∪ _pages s) (_idle_pages s) (_unfinished_tasks s) (heap s)).

(** [set.remove] raises [KeyError] on an absent element. *)
Definition pages_remove (p : ref) : M unit :=
  λ l s,
    if decide (p ∈ _pages s)
    then Done (inr tt) l
           (mkPool (_pages s ∖ {[p]}) (_idle_pages s) (_unfinished_tasks s) (heap s))
    else Done (inl KeyError) l s.

(** *** Page attributes *)

Definition read_page {A} (f : Page → A) (d : A) (p : ref) : M A :=
  λ l s, Done (inr (from_option f d (heap s !! p))) l s.

(** Modelled from the spec: the constructor of [chromerdp.Page] is not in this
    file.  A new Page has its transport closed and "iteration counter reset
    to 0"; its id is the one the Driver reports. *)
Definition fresh_page (tab_id : string) : Page := mkPage tab_id false 0.

(** [await self._rdp.new_page()]: a Page object that did not exist before. *)
Definition new_page : M ref :=
  tab_id <- await (Plain NewPage) ;;
  λ l s,
    let p := fresh (dom (heap s)) in
    Done (inr p) l
      (mkPool (_pages s) (_idle_pages s) (_unfinished_tasks s)
              (<[p := fresh_page tab_id]> (heap s))).

(** ** class Prerender *)

(** [bootstrap], lines 27-31: [for i in range(CONCURRENCY_PER_WORKER)]. *)
Fixpoint bootstrap_loop (n : nat) : M unit :=
  match n with
  | O => ret tt
  | S n' =>
      page <- new_page ;;
      put page ;;;
      pages_add page ;;;
      bootstrap_loop n'
  end.
Definition bootstrap : M unit := bootstrap_loop (Z.to_nat CONCURRENCY_PER_WORKER).

(** [shutdown], lines 39-42.  The pages are visited in the order in which the
    set yields them.  [self._rdp.shutdown()] is a plain call, not awaited; it
    is written as a suspension only to let the Driver answer it. *)
Fixpoint close_all (ps : list ref) : M unit :=
  match ps with
  | [] => ret tt
  | page :: ps' => await (Plain (Close page)) ;;; close_all ps'
  end.
Definition shutdown : M unit :=
  s <- get_pool ;;
  close_all (elements (_pages s)) ;;;
  await (Plain RdpShutdown) ;;;
  ret tt.

(** [_manage_page], lines 90-101: back to the queue, or close and replace. *)
Definition recycle (page : ref) (reopen : bool) : M unit :=
  it <- read_page iteration 0 page ;;
  if negb reopen && (it <? MAX_ITERATIONS) then
    put page
  else
    await (Plain (Close page)) ;;;
    pages_remove page ;;;
    page' <- new_page ;;
    await (Plain (Sleep 100)) ;;;
    put page' ;;;
    pages_add page'.

(** [_manage_page], lines 83-101. *)
Definition _manage_page (page : ref) (reopen : bool) : M unit :=
  task_done ;;;
  ws <- read_page websocket false page ;;
  (if ws then
     (if negb reopen
      then await (Plain (Navigate page "about:blank")) ;;; ret tt
      else ret tt) ;;;
     await (Plain (Detach page)) ;;; ret tt
   else ret tt) ;;;
  recycle page reopen.

(** The [except] clauses of lines 65-79. *)
Definition classify (e : exn) : M string :=
  match e with
  | InvalidHandshake =>
      set_reopen true ;;;
      raise (TemporaryBrowserFailure "Invalid handshake")
  | ConnectionClosed =>
      set_reopen true ;;;
      raise (TemporaryBrowserFailure "Chrome remote debugging connection closed")
  | RuntimeError msg =>
      if contains "unable to perform operation" msg then
        set_reopen true ;;;
        raise (TemporaryBrowserFailure msg)
      else raise e
  | _ => raise e
  end.

(** The statements under [try], lines 55-64. *)
Definition drive (page : ref) (url : string) : M string :=
  await (Plain (Attach page)) ;;;
  try_except (wait_for (Listen page) 1000)
    (λ e, match e with
          | TimeoutError =>
              set_reopen true ;;;
              raise (TemporaryBrowserFailure "Attach to Chrome page timed out")
          | _ => raise e
          end) ;;;
  await (Plain (Navigate page url)) ;;;
  html <- wait_for (Wait page) (PRERENDER_TIMEOUT * 1000) ;;
  ret html.

(** Lines 48-51. *)
Definition acquire : M ref :=
  try_except (wait_for_get 10000)
    (λ e, match e with
          | TimeoutError =>
              raise (TemporaryBrowserFailure "No Chrome page available in 10s")
          | _ => raise e
          end).

(** The [finally] clause, lines 80-81. *)
Definition release_of (page : ref) : M unit :=
  reopen <- get_reopen ;;
  shield (_manage_page page reopen).

(** Lines 53-81, with [page] bound. *)
Definition serve (page : ref) (url : string) : M string :=
  set_reopen false ;;;
  try_finally
    (try_except (drive page url) classify)
    (release_of page).

(** [render], lines 44-81. *)
Definition render (url : string) : M string :=
  s <- get_pool ;;
  if decide (_pages s = ∅) then raise (RuntimeError "No browser available")
  else
    page <- acquire ;;
    serve page url.

(** *** The same code as a transition table

    [machine] says, for every point at which [render] can be suspended, what
    the resumed coroutine does up to its next suspension.  It is read off the
    definitions above and proved to agree with them ([render_sim]); the
    invariants of the pool are then proved on the table. *)

Inductive pc :=
| PAcquire (url : string)                         (* line 49 *)
| PAttach (p : ref) (url : string)                (* line 55 *)
| PListen (p : ref) (url : string)                (* line 57 *)
| PNavigate (p : ref) (url : string)              (* line 62 *)
| PWait (p : ref)                                 (* line 63 *)
| PBlank (p : ref) (r0 : exn + string)            (* line 87 *)
| PDetach (p : ref) (b : bool) (r0 : exn + string)  (* line 88 *)
| PClose (p : ref) (r0 : exn + string)            (* line 94 *)
| PNew (r0 : exn + string)                        (* line 96 *)
| PSleep (p' : ref) (r0 : exn + string).          (* line 98 *)

Definition label_of (q : pc) : bool * call :=
  match q with
  | PAcquire _ => (false, WaitFor QueueGet 10000)
  | PAttach p _ => (false, Plain (Attach p))
  | PListen p _ => (false, WaitFor (Listen p) 1000)
  | PNavigate p url => (false, Plain (Navigate p url))
  | PWait p => (false, WaitFor (Wait p) (PRERENDER_TIMEOUT * 1000))
  | PBlank p _ => (true, Plain (Navigate p "about:blank"))
  | PDetach p _ _ => (true, Plain (Detach p))
  | PClose p _ => (true, Plain (Close p))
  | PNew _ => (true, Plain NewPage)
  | PSleep _ _ => (true, Plain (Sleep 100))
  end.

Inductive Step :=
| Finished (r : exn + string) (s : Pool)
| Paused (q : pc) (s : Pool).

Definition m_recycle (p : ref) (b : bool) (r0 : exn + string) (s : Pool) : Step :=
  if negb b && (from_option iteration 0 (heap s !! p) <? MAX_ITERATIONS)
  then Finished r0 (mkPool (_pages s) (_idle_pages s ++ [p])
                           (S (_unfinished_tasks s)) (heap s))
  else Paused (PClose p r0) s.

Definition m_release (p : ref) (b : bool) (r0 : exn + string) (s : Pool) : Step :=
  match _unfinished_tasks s with
  | O => Finished (inl (ValueError "task_done() called too many times")) s
  | S n =>
      let s1 := mkPool (_pages s) (_idle_pages s) n (heap s) in
      if from_option websocket false (heap s !! p)
      then (if negb b then Paused (PBlank p r0) s1 else Paused (PDetach p b r0) s1)
      else m_recycle p b r0 s1
  end.

Definition m_raise (p : ref) (listening : bool) (e : exn) (s : Pool) : Step :=
  match e with
  | InvalidHandshake =>
      m_release p true (inl (TemporaryBrowserFailure "Invalid handshake")) s
  | ConnectionClosed =>
      m_release p true
        (inl (TemporaryBrowserFailure "Chrome remote debugging connection closed")) s
  | RuntimeError msg =>
      if contains "unable to perform operation" msg
      then m_release p true (inl (TemporaryBrowserFailure msg)) s
      else m_release p false (inl e) s
  | TimeoutError =>
      if listening
      then m_release p true
             (inl (TemporaryBrowserFailure "Attach to Chrome page timed out")) s
      else m_release p false (inl e) s
  | _ => m_release p false (inl e) s
  end.

Definition machine (q : pc) (r : reply) (s : Pool) : Step :=
  let s1 := effect (label_of q).2 r s in
  match q, r with
  | PAcquire url, ROk _ =>
      match _idle_pages s with
      | [] => Finished (inl QueueEmpty) s
      | p :: idle =>
          Paused (PAttach p url)
                 (mkPool (_pages s) idle (_unfinished_tasks s) (heap s))
      end
  | PAcquire _, RRaise TimeoutError =>
      Finished (inl (TemporaryBrowserFailure "No Chrome page available in 10s")) s
  | PAcquire _, RRaise e => Finished (inl e) s
  | PAttach p url, ROk _ => Paused (PListen p url) s1
  | PAttach p _, RRaise e => m_raise p false e s1
  | PListen p url, ROk _ => Paused (PNavigate p url) s1
  | PListen p _, RRaise e => m_raise p true e s1
  | PNavigate p _, ROk _ => Paused (PWait p) s1
  | PNavigate p _, RRaise e => m_raise p false e s1
  | PWait p, ROk html => m_release p false (inr html) s1
  | PWait p, RRaise e => m_raise p false e s1
  | PBlank p r0, ROk _ => Paused (PDetach p false r0) s1
  | PDetach p b r0, ROk _ => m_recycle p b r0 s1
  | PClose p r0, ROk _ =>
      if decide (p ∈ _pages s)
      then Paused (PNew r0)
             (mkPool (_pages s ∖ {[p]}) (_idle_pages s) (_unfinished_tasks s) (heap s1))
      else Finished (inl KeyError) s1
  | PNew r0, ROk tab_id =>
      let p' := fresh (dom (heap s)) in
      Paused (PSleep p' r0)
             (mkPool (_pages s) (_idle_pages s) (_unfinished_tasks s)
                     (<[p' := fresh_page tab_id]> (heap s)))
  | PSleep p' r0, ROk _ =>
      Finished r0 (mkPool ({[p']} ∪ _pages s) (_idle_pages s ++ [p'])
                          (S (_unfinished_tasks s)) (heap s))
  | (PBlank _ _ | PDetach _ _ _ | PClose _ _ | PNew _ | PSleep _ _), RRaise e =>
      Finished (inl e) s1
  end.

Definition m_start (url : string) (s : Pool) : Step :=
  if decide (_pages s = ∅)
  then Finished (inl (RuntimeError "No browser available")) s
  else Paused (PAcquire url) s.

(** [sim m st]: the coroutine [m] and the table entry [st] end alike or
    suspend alike, and go on alike whatever they are resumed with. *)
Fixpoint sim (m : Res string) (st : Step) : Prop :=
  match m with
  | Done r _ s => st = Finished r s
  | Susp sh c s k =>
      ∃ q, st = Paused q s ∧ label_of q = (sh, c) ∧
           ∀ r s', sim (k r s') (machine q r s')
  end.

(** ** Several callers: the cooperative scheduler *)

(** A [render] call that is suspended: what it waits for, and how it goes on. *)
Record Task := mkTask {
  t_shield : bool;
  t_call : call;
  t_k : reply → Pool → Res string;
}.

Record Config := mkConfig {
  pool : Pool;
  tasks : list Task;
}.

(** The scheduler either starts a new [render(url)], which runs up to its
    first suspension, or resumes the [i]-th suspended call with a reply. *)
Inductive action :=
| Call (url : string)
| Resume (i : nat) (r : reply).

(** A getter is woken with an item only when the queue has one
    ([while self.empty()]), and a cancellation does not reach a coroutine
    that waits inside [asyncio.shield]. *)
Definition admissible (s : Pool) (t : Task) (r : reply) : bool :=
  match r with
  | ROk _ =>
      match op_of (t_call t) with
      | QueueGet => bool_decide (_idle_pages s ≠ [])
      | _ => true
      end
  | RRaise CancelledError => negb (t_shield t)
  | RRaise _ => true
  end.

Definition settle (m : Res string) (keep : Task → list Task)
    (drop : list Task) : Config :=
  match m with
  | Done _ _ s => mkConfig s drop
  | Susp sh c s k => mkConfig s (keep (mkTask sh c k))
  end.

Definition do_action (cfg : Config) (a : action) : option Config :=
  match a with
  | Call url =>
      Some (settle (render url init_locals (pool cfg))
                   (λ t, tasks cfg ++ [t]) (tasks cfg))
  | Resume i r =>
      match tasks cfg !! i with
      | Some t =>
          if admissible (pool cfg) t r
          then Some (settle (t_k t r (pool cfg))
                            (λ t', <[i := t']> (tasks cfg))
                            (delete i (tasks cfg)))
          else None
      | None => None
      end
  end.

Fixpoint exec (cfg : Config) (acts : list action) : option Config :=
  match acts with
  | [] => Some cfg
  | a :: acts' =>
      match do_action cfg a with
      | Some cfg' => exec cfg' acts'
      | None => None
      end
  end.

(** No call made from inside the release step ([_manage_page], the only
    shielded code) comes back with an exception. *)
Definition benign (cfg : Config) (a : action) : bool :=
  match a with
  | Call _ => true
  | Resume i r =>
      match tasks cfg !! i with
      | Some t => implb (t_shield t) (is_ok r)
      | None => true
      end
  end.

Fixpoint all_benign (cfg : Config) (acts : list action) : bool :=
  match acts with
  | [] => true
  | a :: acts' =>
      benign cfg a &&
      match do_action cfg a with
      | Some cfg' => all_benign cfg' acts'
      | None => true
      end
  end.

Definition count {A} (f : A → bool) (l : list A) : nat :=
  length (List.filter f l).

(** The pages that suspended [render] calls are working on, read off the call
    each one waits for.  While a call waits for [new_page()] or for the grace
    delay it is in the middle of a replacement: the old page has left
    [_pages] and the new one is not in it yet. *)
Definition checked_out (ts : list Task) : list ref :=
  omap (λ t, target (op_of (t_call t))) ts.

Definition swapping (o : op) : bool :=
  match o with NewPage | Sleep _ => true | _ => false end.

Definition swaps (ts : list Task) : nat :=
  count (λ t, swapping (op_of (t_call t))) ts.

(** The same on the transition table. *)
Definition held_pc (q : pc) : option ref := target (op_of (label_of q).2).
Definition swap_pc (q : pc) : bool := swapping (op_of (label_of q).2).
Definition body_pc (q : pc) : bool :=
  match q with
  | PAttach _ _ | PListen _ _ | PNavigate _ _ | PWait _ => true
  | _ => false
  end.
Definition pending_pc (q : pc) : option ref :=
  match q with PSleep p' _ => Some p' | _ => None end.

(** The invariant of the pool, with the suspended calls at [pcs]. *)
Definition PInv (n : nat) (s : Pool) (pcs : list pc) : Prop :=
  NoDup (_idle_pages s ++ omap held_pc pcs ++ omap pending_pc pcs) ∧
  (∀ p, p ∈ _pages s ↔ p ∈ _idle_pages s ++ omap held_pc pcs) ∧
  (∀ p, p ∈ _idle_pages s ++ omap held_pc pcs ++ omap pending_pc pcs →
        p ∈ dom (heap s)) ∧
  _unfinished_tasks s = (length (_idle_pages s) + count body_pc pcs)%nat ∧
  (size (_pages s) + count swap_pc pcs)%nat = n.

Definition at_pc (t : Task) (q : pc) : Prop :=
  label_of q = (t_shield t, t_call t) ∧
  ∀ r s, sim (t_k t r s) (machine q r s).

Definition Inv (n : nat) (cfg : Config) : Prop :=
  ∃ pcs, Forall2 at_pc (tasks cfg) pcs ∧ PInv n (pool cfg) pcs.

(** ** Vocabulary of the properties *)

(** What holds of the pool between calls, whatever happened before: the idle
    queue has no page twice and only pages of [_pages], every page of
    [_pages] is a live object, and the queue's count of unfinished tasks
    covers its items. *)
Definition wf (s : Pool) : Prop :=
  NoDup (_idle_pages s) ∧
  Forall (λ p, p ∈ _pages s) (_idle_pages s) ∧
  _pages s ⊆ dom (heap s) ∧
  (length (_idle_pages s) ≤ _unfinished_tasks s)%nat.

(** The failures that the spec has the FailureClassifier recognise, each with
    the message of the [TemporaryBrowserFailure] it becomes: an invalid
    handshake, a closed connection, the driver's "unable to perform
    operation" condition, and the expiry of the wait for [page.listen()]. *)
Definition recognized (c : call) (e : exn) : option string :=
  match e with
  | InvalidHandshake => Some "Invalid handshake"
  | ConnectionClosed => Some "Chrome remote debugging connection closed"
  | RuntimeError msg =>
      if contains "unable to perform operation" msg then Some msg else None
  | TimeoutError =>
      match op_of c with
      | Listen _ => Some "Attach to Chrome page timed out"
      | _ => None
      end
  | _ => None
  end.

(** Lines 85-88 when the calls they make return [a] (navigate) and [d]
    (detach): the replies they use up, what the scheduler sees of them, and
    the Page object they leave. *)
Definition settle_script (reopen : bool) (a d : string) (pg : Page) : list reply :=
  if websocket pg
  then (if reopen then [ROk d] else [ROk a; ROk d])
  else [].

Definition settle_trace (page : ref) (reopen : bool) (a d : string) (pg : Page)
    : list event :=
  if websocket pg
  then (if reopen
        then [(false, Plain (Detach page), ROk d)]
        else [(false, Plain (Navigate page "about:blank"), ROk a);
              (false, Plain (Detach page), ROk d)])
  else [].

Definition settled (page : ref) (reopen : bool) (a d : string) (pg : Page) : Page :=
  if websocket pg
  then page_eff (Detach page) (ROk d)
         (if reopen then pg
          else page_eff (Navigate page "about:blank") (ROk a) pg)
  else pg.

(** The Page object after lines 55-63 when [page.wait()] is the call that
    fails, with [e]. *)
Definition driven (page : ref) (url a l n : string) (e : exn) (pg : Page) : Page :=
  page_eff (Wait page) (RRaise e)
    (page_eff (Navigate page url) (ROk n)
       (page_eff (Listen page) (ROk l)
          (page_eff (Attach page) (ROk a) pg))).

(** A call of [page.close()] that returned, as the scheduler saw it. *)
Definition closed_in (tr : list event) (p : ref) : Prop :=
  ∃ v, (false, Plain (Close p), ROk v) ∈ tr.

(** No call made from inside [asyncio.shield] came back with an exception. *)
Definition release_undisturbed (tr : list event) : Prop :=
  Forall (λ ev : event, ev.1.1 = true → is_ok (ev.2) = true) tr.

(** ** Vocabulary for the rest of the module *)

(** A pool with no call in it: every page of [_pages] is idle, once. *)
Definition quiescent (s : Pool) : Prop :=
  NoDup (_idle_pages s) ∧
  _pages s = list_to_set (_idle_pages s) ∧
  _pages s ⊆ dom (heap s) ∧
  _unfinished_tasks s = length (_idle_pages s).

(** [needle] occurs somewhere in [hay]. *)
Definition occurs_in (needle hay : string) : Prop :=
  ∃ pre post, hay = String.append pre (String.append needle post).

(** What the scheduler saw of [close_all] on [ps] answered by [rs]. *)
Definition close_events (ps : list ref) (rs : list reply) : list event :=
  (λ '(p, r), (false, Plain (Close p), r)) <$> zip ps rs.

(** The calls that have got past line 49. *)
Definition waiting_for_page (t : Task) : bool :=
  match op_of (t_call t) with QueueGet => true | _ => false end.

Definition past_acquire (ts : list Task) : nat :=
  count (λ t, negb (waiting_for_page t)) ts.

(** The calls between lines 55 and 64: suspended outside the shield, on a
    method of their page. *)
Definition in_body (t : Task) : bool :=
  negb (t_shield t) && bool_decide (is_Some (target (op_of (t_call t)))).

Definition serving (ts : list Task) : nat := count in_body ts.

(** What the pool keeps whatever its calls come back with: the pages in the
    queue and with the calls are all different and all in [_pages], the
    queue's count of unfinished tasks covers them, and [_pages] with the
    replacements in progress never exceeds [n]. *)
Definition SInv (n : nat) (s : Pool) (pcs : list pc) : Prop :=
  NoDup (_idle_pages s ++ omap held_pc pcs ++ omap pending_pc pcs) ∧
  (∀ p, p ∈ _idle_pages s ++ omap held_pc pcs → p ∈ _pages s) ∧
  (∀ p, p ∈ _idle_pages s ++ omap held_pc pcs ++ omap pending_pc pcs →
        p ∈ dom (heap s)) ∧
  (length (_idle_pages s) + count body_pc pcs ≤ _unfinished_tasks s)%nat ∧
  (size (_pages s) + count swap_pc pcs ≤ n)%nat.

Definition Safe (n : nat) (cfg : Config) : Prop :=
  ∃ pcs, Forall2 at_pc (tasks cfg) pcs ∧ SInv n (pool cfg) pcs.

End Prerender.

(** ** A small pool to run the code on *)

(** The scenario of the spec: two pages, each forced out after two
    renders; the Page class as the spec describes it. *)
Definition demo_env : Env := {|
  PRERENDER_TIMEOUT := 30;
  CONCURRENCY_PER_WORKER := 2;
  MAX_ITERATIONS := 2;
  page_eff := spec_page_eff;
|}.

(** What [bootstrap] leaves when the Driver names its tabs "A" and "B". *)
Definition demo_heap : gmap ref Page :=
  <[2%positive := fresh_page "B"]> (<[1%positive := fresh_page "A"]> ∅).

Definition demo_pool : Pool :=
  mkPool {[1%positive; 2%positive]} [1%positive; 2%positive] 2 demo_heap.

Definition demo_boot : Outcome unit :=
  mkOutcome (inr tt) init_locals demo_pool
            [(false, Plain NewPage, ROk "A"); (false, Plain NewPage, ROk "B")] [].

(** The same pool while a [render] has page 1: fresh, with its transport
    open, or with its two renders served. *)
Definition demo_taken (pg : Page) : Pool :=
  mkPool {[1%positive; 2%positive]} [2%positive] 2
         (<[1%positive := pg]> demo_heap).

Definition demo_fresh : Page := mkPage "A" false 0.
Definition demo_open : Page := mkPage "A" true 0.
Definition demo_worn : Page := mkPage "A" true 2.

(** A pool of one page, and a scheduler run on it: a caller takes the page,
    [attach()] fails with an invalid handshake, and in the release step
    [close()] raises. *)
Definition solo_env : Env := {|
  PRERENDER_TIMEOUT := 30;
  CONCURRENCY_PER_WORKER := 1;
  MAX_ITERATIONS := 200;
  page_eff := spec_page_eff;
|}.

Definition solo_pool : Pool :=
  mkPool {[1%positive]} [1%positive] 1 (<[1%positive := fresh_page "A"]> ∅).

Definition solo_boot : Outcome unit :=
  mkOutcome (inr tt) init_locals solo_pool [(false, Plain NewPage, ROk "A")] [].

Definition solo_broken_release : list action :=
  [Call "http://a/";
   Resume 0 (ROk "");
   Resume 0 (RRaise InvalidHandshake);
   Resume 0 (RRaise (OtherError "OSError"))].

(** Two callers on the two-page pool: the second one's [attach()] finds the
    connection closed and its page is replaced while the first is served;
    then a third caller arrives. *)
Definition demo_schedule : list action :=
  [Call "http://a/";
   Call "http://b/";
   Resume 0 (ROk "");
   Resume 1 (ROk "");
   Resume 0 (ROk "");
   Resume 1 (RRaise ConnectionClosed);
   Resume 0 (ROk "");
   Resume 1 (ROk "");
   Resume 0 (ROk "");
   Resume 1 (ROk "tab-C");
   Resume 0 (ROk "<html>");
   Call "http://c/"].

(** What is left of a configuration once the continuations are dropped. *)
Definition waiting (cfg : Config) : list (bool * call) :=
  (λ t, (t_shield t, t_call t)) <$> tasks cfg.


(** A worker that is given no page: [CONCURRENCY_PER_WORKER=0]. *)
Definition idle_env : Env := {|
  PRERENDER_TIMEOUT := 30;
  CONCURRENCY_PER_WORKER := 0;
  MAX_ITERATIONS := 200;
  page_eff := spec_page_eff;
|}.

(** The one-page pool while its page is with a call. *)
Definition solo_taken : Pool :=
  mkPool {[1%positive]} [] 1 (<[1%positive := fresh_page "A"]> ∅).
(** * Properties *)

Section Properties.
Context `{Env}.

(** ** How [run] goes through the combinators *)

Lemma prepend_nil {A} (o : Outcome A) : prepend [] o = o.
Proof. by destruct o. Qed.

Lemma fmap_prepend_nil {A} (x : option (Outcome A)) : prepend [] <$> x = x.
Proof. destruct x as [o|]; [|done]. simpl. by rewrite prepend_nil. Qed.

Lemma after_log {A B} ev (x : option (Outcome A))
    (g : Outcome A → option (Outcome B)) :
  (∀ o, g (log ev o) = g o) →
  log ev <$> after x g = after (log ev <$> x) g.
Proof.
  intros Hg. destruct x as [o|]; [|done]. simpl. rewrite Hg.
  by destruct (g o).
Qed.

Lemma run_bind {A B} (m : Res A) (f : A → M B) script :
  run (bind_res m f) script =
  after (run m script) (λ o,
    match result o with
    | inl e => Some (mkOutcome (inl e) (locals o) (final o) [] (rest o))
    | inr a => run (f a (locals o) (final o)) (rest o)
    end).
Proof.
  revert script. induction m as [[e|a] l s|sh c s k IH]; intros script; simpl.
  - reflexivity.
  - by rewrite fmap_prepend_nil.
  - destruct (op_of c); try (destruct script as [|r script]; [done|]);
      rewrite IH; by apply after_log.
Qed.

Lemma run_catch {A} (m : Res A) (h : exn → M A) script :
  run (catch_res m h) script =
  after (run m script) (λ o,
    match result o with
    | inl e => run (h e (locals o) (final o)) (rest o)
    | inr a => Some (mkOutcome (inr a) (locals o) (final o) [] (rest o))
    end).
Proof.
  revert script. induction m as [[e|a] l s|sh c s k IH]; intros script; simpl.
  - by rewrite fmap_prepend_nil.
  - reflexivity.
  - destruct (op_of c); try (destruct script as [|r script]; [done|]);
      rewrite IH; by apply after_log.
Qed.

Lemma run_finally {A} (m : Res A) (f : M unit) script :
  run (finally_res m f) script =
  after (run m script) (λ o,
    merge o <$> run (f (locals o) (final o)) (rest o)).
Proof.
  revert script. induction m as [r l s|sh c s k IH]; intros script; simpl.
  - rewrite fmap_prepend_nil, run_bind.
    destruct (run (f l s) script) as [[[e|[]] l2 s2 tr2 rs2]|]; simpl;
      [| |done]; unfold prepend, merge; simpl; by rewrite app_nil_r.
  - destruct (op_of c); try (destruct script as [|r script]; [done|]);
      rewrite IH; by apply after_log.
Qed.

Lemma run_shield {A} (m : Res A) script :
  run (shield_res m) script =
  as_shielded <$> run m script.
Proof.
  revert script. induction m as [r l s|sh c s k IH]; intros script; simpl.
  - reflexivity.
  - destruct (op_of c); try (destruct script as [|r script]; [done|]);
      rewrite IH; by destruct (run (k _ s) _).
Qed.

(** ** The transition table agrees with the code *)

Local Ltac susp :=
  eexists; split; [reflexivity|split; [reflexivity|]]; intros [?|?] ?; cbn.

Lemma sim_recycle p b r0 l s :
  sim (bind_res (shield_res (recycle p b l s)) (λ _ l' s', Done r0 l' s'))
      (m_recycle p b r0 s).
Proof.
  unfold recycle, m_recycle, bind, read_page. simpl.
  destruct (negb b && _); simpl; [reflexivity|].
  susp; [|reflexivity].
  unfold pages_remove; simpl.
  destruct (decide _); simpl; [|reflexivity].
  susp; [|reflexivity].
  susp; [|reflexivity].
  reflexivity.
Qed.

Local Arguments recycle : simpl never.
Local Arguments m_recycle : simpl never.

Lemma sim_release p b r0 l s :
  sim (bind_res (shield_res (_manage_page p b l s)) (λ _ l' s', Done r0 l' s'))
      (m_release p b r0 s).
Proof.
  unfold _manage_page, m_release, bind, task_done, read_page. cbn.
  destruct (_unfinished_tasks s); cbn; [reflexivity|].
  destruct (from_option websocket false _); cbn.
  - destruct b; cbn.
    + susp; [|reflexivity]. apply sim_recycle.
    + susp; [|reflexivity]. susp; [|reflexivity]. apply sim_recycle.
  - apply sim_recycle.
Qed.

Local Arguments _manage_page : simpl never.
Local Arguments m_release : simpl never.

Lemma sim_raise p (listening : bool) e s :
  sim (finally_res
         (catch_res
            ((if listening
              then match e with
                   | TimeoutError =>
                       set_reopen true ;;;
                       raise (TemporaryBrowserFailure "Attach to Chrome page timed out")
                   | _ => raise e
                   end
              else raise e : M string) (mkLocals false) s)
            classify)
         (release_of p))
      (m_raise p listening e s).
Proof.
  unfold m_raise, classify, release_of, bind, set_reopen, raise, get_reopen, shield.
  destruct listening, e; cbn; try apply sim_release.
  all: match goal with |- context [contains ?a ?b] => destruct (contains a b) end;
    cbn; apply sim_release.
Qed.

Local Ltac raised :=
  match goal with
  | e : exn |- _ =>
      destruct e;
      match goal with
      | |- sim _ (m_raise ?p ?b ?e' ?s) => exact (sim_raise p b e' s)
      end
  end.

Lemma sim_serve p url l s :
  sim (serve p url l s) (Paused (PAttach p url) s).
Proof.
  unfold serve, drive, bind, try_finally, try_except, wait_for, await, set_reopen.
  cbn.
  susp; [|raised].
  susp; [|raised].
  susp; [|raised].
  susp; [|raised].
  apply sim_release.
Qed.

Lemma render_sim url l s : sim (render url l s) (m_start url s).
Proof.
  unfold render, m_start, bind, get_pool, acquire, try_except. simpl.
  destruct (decide _); simpl; [reflexivity|].
  susp.
  - unfold get_nowait. destruct (_idle_pages _) as [|p idle]; [reflexivity|].
    exact (sim_serve p url l _).
  - destruct e; reflexivity.
Qed.

(** ** The pool invariant *)

Lemma count_cons {A} (f : A → bool) x l :
  count f (x :: l) = ((if f x then 1 else 0) + count f l)%nat.
Proof. unfold count. simpl. by destruct (f x). Qed.

Lemma count_app {A} (f : A → bool) l k :
  count f (l ++ k) = (count f l + count f k)%nat.
Proof. unfold count. by rewrite List.filter_app, length_app. Qed.

Lemma count_Permutation {A} (f : A → bool) l k :
  l ≡ₚ k → count f l = count f k.
Proof.
  induction 1 as [|x l k _ IH|x y l|l k m _ IH1 _ IH2];
    rewrite ?count_cons; lia.
Qed.

Local Arguments count : simpl never.

Lemma PInv_Permutation n s pcs pcs' :
  pcs ≡ₚ pcs' → PInv n s pcs → PInv n s pcs'.
Proof.
  intros Hp (Hnd & Hpg & Hhp & Hun & Hsz). unfold PInv.
  rewrite <- (count_Permutation body_pc _ _ Hp).
  rewrite <- (count_Permutation swap_pc _ _ Hp).
  split_and!; [|intros p..|done|done].
  - by rewrite <- Hp.
  - rewrite Hpg. by rewrite Hp.
  - rewrite <- Hp. apply Hhp.
Qed.

Lemma PInv_effect n c r s pcs : PInv n s pcs → PInv n (effect c r s) pcs.
Proof.
  unfold effect. destruct (target (op_of c)) as [p|]; [|done].
  intros (Hnd & Hpg & Hhp & Hun & Hsz). unfold PInv; simpl.
  rewrite dom_alter_L. done.
Qed.

(** Lines 90-101 on the table: the call holds [p] and has run [task_done]. *)
Lemma PInv_recycle n p b r0 s R :
  PInv n s (PClose p r0 :: R) →
  match m_recycle p b r0 s with
  | Finished _ s' => PInv n s' R
  | Paused q' s' => PInv n s' (q' :: R)
  end.
Proof.
  intros HI. unfold m_recycle. destruct (negb b && _); [|done].
  destruct HI as (Hnd & Hpg & Hhp & Hun & Hsz).
  unfold PInv in *. rewrite !count_cons in *. cbn in *.
  split_and!; [|intros x..| |done].
  - revert Hnd. apply NoDup_Permutation_proper. solve_Permutation.
  - rewrite Hpg. set_solver.
  - intros Hx. apply Hhp. set_solver.
  - rewrite length_app. simpl. lia.
Qed.

(** Lines 84-88 on the table: the call holds [p] and leaves the body. *)
Lemma PInv_release n p b r0 s R :
  PInv n s (PWait p :: R) →
  match m_release p b r0 s with
  | Finished _ s' => PInv n s' R
  | Paused q' s' => PInv n s' (q' :: R)
  end.
Proof.
  intros HI. unfold m_release.
  assert (∃ k, _unfinished_tasks s = S k) as [k Hk].
  { destruct HI as (_ & _ & _ & Hun & _). rewrite count_cons in Hun.
    cbn in Hun. exists (length (_idle_pages s) + count body_pc R)%nat. lia. }
  rewrite Hk.
  assert (PInv n (mkPool (_pages s) (_idle_pages s) k (heap s))
            (PClose p r0 :: R)) as HI'.
  { destruct HI as (Hnd & Hpg & Hhp & Hun & Hsz).
    unfold PInv in *. rewrite !count_cons in *. cbn in *.
    split_and!; [done..|lia|done]. }
  destruct (from_option websocket false _).
  - destruct b; exact HI'.
  - by apply PInv_recycle.
Qed.

Lemma PInv_raise n p listening e s R :
  PInv n s (PWait p :: R) →
  match m_raise p listening e s with
  | Finished _ s' => PInv n s' R
  | Paused q' s' => PInv n s' (q' :: R)
  end.
Proof.
  intros HI. unfold m_raise.
  destruct e, listening; try by apply PInv_release.
  all: match goal with
       | |- context [contains ?a ?b] => destruct (contains a b)
       end; by apply PInv_release.
Qed.

(** One resumption of one call keeps the invariant, as long as a call made
    from inside the release step does not raise. *)
Lemma PInv_machine n q r s R :
  PInv n s (q :: R) →
  ((label_of q).1 = true → is_ok r = true) →
  match machine q r s with
  | Finished _ s' => PInv n s' R
  | Paused q' s' => PInv n s' (q' :: R)
  end.
Proof.
  intros HI Hok.
  destruct q as [url|p url|p url|p url|p|p r0|p b r0|p r0|r0|p' r0];
    destruct r as [v|e]; try (by (discriminate (Hok eq_refl)));
    unfold machine; cbn [label_of snd fst].
  - (* the getter is woken *)
    destruct (_idle_pages s) as [|p idle] eqn:Hidle.
    + destruct HI as (Hnd & Hpg & Hhp & Hun & Hsz).
      unfold PInv in *. rewrite !count_cons in *. cbn in *.
      rewrite Hidle in *. done.
    + destruct HI as (Hnd & Hpg & Hhp & Hun & Hsz).
      unfold PInv in *. rewrite !count_cons in *. cbn in *.
      rewrite Hidle in *. cbn in *.
      split_and!; [|intros x..|lia|done].
      * revert Hnd. apply NoDup_Permutation_proper. solve_Permutation.
      * rewrite Hpg. set_solver.
      * intros Hx. apply Hhp. set_solver.
  - (* the getter gives up *)
    assert (PInv n s R).
    { destruct HI as (Hnd & Hpg & Hhp & Hun & Hsz).
      unfold PInv in *. rewrite !count_cons in *. cbn in *. done. }
    by destruct e.
  - apply (PInv_effect n (Plain (Attach p)) (ROk v)) in HI. exact HI.
  - apply PInv_raise.
    apply (PInv_effect n (Plain (Attach p)) (RRaise e)) in HI. exact HI.
  - apply (PInv_effect n (Plain (Listen p)) (ROk v)) in HI. exact HI.
  - apply PInv_raise.
    apply (PInv_effect n (Plain (Listen p)) (RRaise e)) in HI. exact HI.
  - apply (PInv_effect n (Plain (Navigate p url)) (ROk v)) in HI. exact HI.
  - apply PInv_raise.
    apply (PInv_effect n (Plain (Navigate p url)) (RRaise e)) in HI. exact HI.
  - apply PInv_release.
    apply (PInv_effect n (Plain (Wait p)) (ROk v)) in HI. exact HI.
  - apply PInv_raise.
    apply (PInv_effect n (Plain (Wait p)) (RRaise e)) in HI. exact HI.
  - apply (PInv_effect n (Plain (Navigate p "about:blank")) (ROk v)) in HI.
    exact HI.
  - apply PInv_recycle.
    apply (PInv_effect n (Plain (Detach p)) (ROk v)) in HI. exact HI.
  - (* the old page leaves the set *)
    destruct HI as (Hnd & Hpg & Hhp & Hun & Hsz).
    unfold PInv in *. rewrite !count_cons in *. cbn in *.
    assert (p ∈ _pages s) by (apply Hpg; set_solver).
    rewrite <- Permutation_middle in Hnd. apply NoDup_cons in Hnd as [Hp Hnd].
    rewrite decide_True by done. cbn.
    rewrite dom_alter_L.
    split_and!; [done|intros x..|done|].
    + rewrite elem_of_difference, Hpg. set_solver.
    + intros Hx. apply Hhp. set_solver.
    + assert (size (_pages s) = S (size (_pages s ∖ {[p]}))) as Hs.
      { rewrite (union_difference_L {[p]} (_pages s)) at 1 by set_solver.
        rewrite size_union by set_solver. by rewrite size_singleton. }
      rewrite Hs in Hsz. unfold count in *. simpl. lia.
  - (* the new page exists, outside the pool *)
    destruct HI as (Hnd & Hpg & Hhp & Hun & Hsz).
    unfold PInv in *. rewrite !count_cons in *. cbn in *.
    pose proof (is_fresh (dom (heap s))) as Hfresh.
    rewrite dom_insert_L.
    split_and!; [|done|intros x|done|done].
    + rewrite (assoc_L (++)), <- Permutation_middle, <- (assoc_L (++)).
      apply NoDup_cons. split; [|done].
      intros Hin. by apply Hfresh, Hhp.
    + rewrite (assoc_L (++)), elem_of_app, elem_of_cons, elem_of_union.
      intros [Hx|[->|Hx]]; [right|left|right]; try apply Hhp; set_solver.
  - (* the new page enters the set and the queue *)
    destruct HI as (Hnd & Hpg & Hhp & Hun & Hsz).
    unfold PInv in *. rewrite !count_cons in *. cbn in *.
    rewrite (assoc_L (++)), <- Permutation_middle in Hnd.
    assert (p' ∉ _idle_pages s ++ omap held_pc R).
    { apply NoDup_cons_1_1 in Hnd. set_solver. }
    split_and!; [|intros x..| |].
    + revert Hnd. apply NoDup_Permutation_proper. solve_Permutation.
    + rewrite elem_of_union, Hpg. set_solver.
    + intros Hx. apply Hhp. set_solver.
    + rewrite length_app. simpl. lia.
    + rewrite size_union by (rewrite disjoint_singleton_l, Hpg; done).
      rewrite size_singleton. lia.
Qed.

(** *** From the table to the scheduler *)

Lemma insert_Permutation {A} (l : list A) i x :
  (i < length l)%nat → <[i:=x]> l ≡ₚ x :: delete i l.
Proof.
  intros Hi. rewrite insert_take_drop by done. rewrite delete_take_drop.
  by rewrite <- Permutation_middle.
Qed.

Lemma PInv_idle_call n s url pcs :
  PInv n s pcs → PInv n s (PAcquire url :: pcs).
Proof.
  intros (Hnd & Hpg & Hhp & Hun & Hsz). unfold PInv.
  rewrite !count_cons. cbn. done.
Qed.

Lemma Inv_settle n m st keep drop keep_pcs drop_pcs :
  sim m st →
  match st with
  | Finished _ s' => PInv n s' drop_pcs
  | Paused q s' => PInv n s' (keep_pcs q)
  end →
  Forall2 at_pc drop drop_pcs →
  (∀ t q, at_pc t q → Forall2 at_pc (keep t) (keep_pcs q)) →
  Inv n (settle m keep drop).
Proof.
  intros Hsim HI Hdrop Hkeep. destruct m as [r l s|sh c s k]; simpl in *.
  - subst st. by exists drop_pcs.
  - destruct Hsim as (q & -> & Hlab & Hk).
    exists (keep_pcs q). split; [|done]. apply Hkeep. by split.
Qed.

Lemma Inv_action n cfg a cfg' :
  Inv n cfg → do_action cfg a = Some cfg' → benign cfg a = true → Inv n cfg'.
Proof.
  intros (pcs & Hts & HI) Hdo Hben. destruct a as [url|i r]; simpl in *.
  - injection Hdo as <-.
    apply (Inv_settle n _ (m_start url (pool cfg)) _ _ (λ q, pcs ++ [q]) pcs);
      [apply render_sim| |done|].
    + unfold m_start. destruct (decide _); [done|].
      apply (PInv_Permutation n _ (PAcquire url :: pcs)); [|by apply PInv_idle_call].
      by rewrite Permutation_cons_append.
    + intros t q Hq. apply Forall2_app; [done|]. by constructor.
  - destruct (tasks cfg !! i) as [t|] eqn:Ht; [|done].
    destruct (admissible _ _ _); [|done]. injection Hdo as <-.
    destruct (Forall2_lookup_l _ _ _ _ _ Hts Ht) as (q & Hq & Hlab & Hk).
    apply (Inv_settle n _ (machine q r (pool cfg)) _ _
             (λ q', <[i:=q']> pcs) (delete i pcs)); [apply Hk| | |].
    + pose proof (PInv_machine n q r (pool cfg) (delete i pcs)) as Hm.
      destruct (machine q r (pool cfg)) as [r' s'|q' s'].
      * apply Hm; [by apply (PInv_Permutation n _ pcs); [apply delete_Permutation|]|].
        rewrite Hlab. simpl. intros Hsh. rewrite Hsh in Hben. exact Hben.
      * apply (PInv_Permutation n _ (q' :: delete i pcs)).
        { symmetry. apply insert_Permutation. by eapply lookup_lt_Some. }
        apply Hm; [by apply (PInv_Permutation n _ pcs); [apply delete_Permutation|]|].
        rewrite Hlab. simpl. intros Hsh. rewrite Hsh in Hben. exact Hben.
    + by apply Forall2_delete.
    + intros t' q' Hq'. by apply Forall2_insert.
Qed.

Lemma Inv_exec n acts cfg cfg' :
  Inv n cfg → exec cfg acts = Some cfg' → all_benign cfg acts = true →
  Inv n cfg'.
Proof.
  revert cfg. induction acts as [|a acts IH]; intros cfg HI Hex Hben; simpl in *.
  - by injection Hex as <-.
  - apply andb_prop in Hben as [Ha Hben].
    destruct (do_action cfg a) as [cfg1|] eqn:Hdo; [|done].
    apply (IH cfg1); [by eapply Inv_action|done|done].
Qed.

(** [bootstrap] that went through leaves one more idle page per round. *)
Lemma PInv_bootstrap_loop k n l s script o :
  PInv n s [] →
  run (bootstrap_loop k l s) script = Some o →
  result o = inr tt →
  PInv (n + k) (final o) [].
Proof.
  revert n s script o. induction k as [|k IH]; intros n s script o HI Hrun Hres.
  - simpl in Hrun. injection Hrun as <-. simpl. by rewrite Nat.add_0_r.
  - simpl in Hrun. destruct script as [|[tab_id|e] script]; [done| |].
    + cbn in Hrun. destruct (run _ script) as [o'|] eqn:Hrun'; [|done].
      injection Hrun as <-. simpl in *.
      replace (n + S k)%nat with (S n + k)%nat by lia.
      eapply IH; [|exact Hrun'|exact Hres].
      destruct HI as (Hnd & Hpg & Hhp & Hun & Hsz). unfold PInv in *. cbn in *.
      rewrite !app_nil_r in *.
      pose proof (is_fresh (dom (heap s))) as Hfresh.
      set (p := fresh (dom (heap s))) in *.
      assert (p ∉ _idle_pages s) by (intros Hin; by apply Hfresh, Hhp).
      assert (p ∉ _pages s) by (by rewrite Hpg).
      unfold count in *. simpl in *. rewrite dom_insert_L.
      split_and!; [|intros x..| |].
      * apply NoDup_app. split_and!; [done|set_solver|apply NoDup_singleton].
      * rewrite elem_of_union, Hpg. set_solver.
      * intros Hx. apply elem_of_app in Hx as [Hx|Hx]; set_solver.
      * rewrite length_app. simpl. lia.
      * rewrite size_union by set_solver. rewrite size_singleton. lia.
    + cbn in Hrun. injection Hrun as <-. done.
Qed.

Lemma PInv_init : PInv 0 init_pool [].
Proof.
  unfold PInv, init_pool, count; simpl.
  split_and!; [constructor|set_solver|set_solver|done|done].
Qed.

Lemma at_pc_held ts pcs :
  Forall2 at_pc ts pcs →
  checked_out ts = omap held_pc pcs ∧ swaps ts = count swap_pc pcs.
Proof.
  unfold checked_out, swaps.
  induction 1 as [|t q ts pcs [Hlab _] _ [IH1 IH2]]; [done|].
  rewrite !count_cons. cbn. unfold held_pc, swap_pc. rewrite Hlab. simpl.
  rewrite IH1, IH2. done.
Qed.

(** C1 (amended).  Take any execution that starts when [bootstrap] has gone
    through and in which no call made from inside the release step raises.
    At every point at which the scheduler has control:
    the idle pages and the pages that suspended [render] calls are working on
    are together as many as [_pages] has; no page is in the idle queue twice;
    no page is with two calls, and none is both idle and with a call; and
    [_pages] together with the replacements in progress (the old page is out,
    the new one not yet in) are as many as [CONCURRENCY_PER_WORKER]. *)
Theorem pool_invariant script o acts cfg :
  run (bootstrap init_locals init_pool) script = Some o →
  result o = inr tt →
  exec (mkConfig (final o) []) acts = Some cfg →
  all_benign (mkConfig (final o) []) acts = true →
  (length (_idle_pages (pool cfg)) + length (checked_out (tasks cfg)))%nat
    = size (_pages (pool cfg)) ∧
  NoDup (_idle_pages (pool cfg)) ∧
  NoDup (checked_out (tasks cfg)) ∧
  (∀ p, p ∈ _idle_pages (pool cfg) → p ∉ checked_out (tasks cfg)) ∧
  (size (_pages (pool cfg)) + swaps (tasks cfg))%nat
    = Z.to_nat CONCURRENCY_PER_WORKER.
Proof.
  intros Hboot Hres Hex Hben.
  assert (Inv (Z.to_nat CONCURRENCY_PER_WORKER) cfg) as (pcs & Hts & HI).
  { eapply Inv_exec; [|exact Hex|exact Hben].
    exists []. split; [constructor|]. simpl.
    apply (PInv_bootstrap_loop _ 0 _ _ _ _ PInv_init Hboot Hres). }
  destruct (at_pc_held _ _ Hts) as [-> ->].
  destruct HI as (Hnd & Hpg & Hhp & Hun & Hsz).
  rewrite (assoc_L (++)) in Hnd. apply NoDup_app in Hnd as (Hnd & _ & _).
  split_and!; [| | | |done].
  - rewrite <- length_app, <- (size_list_to_set (C:=gset ref)) by done.
    f_equal. apply set_eq. intros p. by rewrite elem_of_list_to_set, Hpg.
  - by apply NoDup_app in Hnd as (? & _ & _).
  - by apply NoDup_app in Hnd as (_ & _ & ?).
  - by apply NoDup_app in Hnd as (_ & ? & _).
Qed.

(** ** Before a page is acquired *)

Lemma render_on_empty url l s :
  _pages s = ∅ →
  render url l s = Done (inl (RuntimeError "No browser available")) l s.
Proof.
  intros Hempty. unfold render, bind, get_pool. simpl.
  by rewrite decide_True.
Qed.

Lemma render_on_pool url l s :
  _pages s ≠ ∅ →
  ∃ k,
    render url l s = Susp false (WaitFor QueueGet 10000) s k ∧
    (∀ s', k (RRaise TimeoutError) s' =
           Done (inl (TemporaryBrowserFailure "No Chrome page available in 10s"))
                l s') ∧
    (∀ v s' p idle,
       _idle_pages s' = p :: idle →
       k (ROk v) s' =
       serve p url l (mkPool (_pages s') idle (_unfinished_tasks s') (heap s'))).
Proof.
  intros Hne. unfold render, bind, get_pool, acquire, try_except. simpl.
  rewrite decide_False by done. simpl.
  eexists. split; [reflexivity|]. split.
  - reflexivity.
  - intros v s' p idle Hidle. unfold get_nowait. by rewrite Hidle.
Qed.

(** C7.  With [_pages] empty (as [__init__] leaves it, before [bootstrap]),
    [render] is done at once: it raises [RuntimeError('No browser
    available')] without suspending on the idle queue or on anything else,
    and leaves the pool as it was. *)
Theorem render_no_browser url l s :
  _pages s = ∅ →
  render url l s = Done (inl (RuntimeError "No browser available")) l s.
Proof. apply render_on_empty. Qed.

(** C8.  With [_pages] not empty, [render] first suspends on
    [wait_for(self._idle_pages.get(), timeout=10)].  When the timer expires
    it raises [TemporaryBrowserFailure('No Chrome page available in 10s')];
    when it is woken with the queue holding [p :: idle], it takes [p] and
    goes on with lines 53-81 on that page. *)
Theorem render_acquire url l s :
  _pages s ≠ ∅ →
  ∃ k,
    render url l s = Susp false (WaitFor QueueGet 10000) s k ∧
    (∀ s', k (RRaise TimeoutError) s' =
           Done (inl (TemporaryBrowserFailure "No Chrome page available in 10s"))
                l s') ∧
    (∀ v s' p idle,
       _idle_pages s' = p :: idle →
       k (ROk v) s' =
       serve p url l (mkPool (_pages s') idle (_unfinished_tasks s') (heap s'))).
Proof. apply render_on_pool. Qed.

(** C10.  A [render] that fails before it has a page leaves the pool exactly
    as it is: with [_pages] empty it is done at once on the entry state; with
    an empty queue and nobody to fill it the only suspension is the one on
    the queue, and at the timeout the call ends on the state it is resumed
    in.  No call of the release step is made and [task_done] is not run. *)
Theorem render_fails_before_acquire url l s script :
  (_pages s = ∅ →
   run (render url l s) script =
   Some (mkOutcome (inl (RuntimeError "No browser available")) l s [] script)) ∧
  (_pages s ≠ ∅ → _idle_pages s = [] →
   run (render url l s) script =
   Some (mkOutcome
           (inl (TemporaryBrowserFailure "No Chrome page available in 10s"))
           l s [(false, WaitFor QueueGet 10000, RRaise TimeoutError)] script)) ∧
  (_pages s ≠ ∅ →
   ∃ k, render url l s = Susp false (WaitFor QueueGet 10000) s k ∧
        ∀ s', k (RRaise TimeoutError) s' =
              Done (inl (TemporaryBrowserFailure "No Chrome page available in 10s"))
                   l s').
Proof.
  split_and!.
  - intros Hempty. by rewrite render_on_empty.
  - intros Hne Hidle.
    destruct (render_on_pool url l s Hne) as (k & -> & Hk & _).
    simpl. unfold queue_reply. rewrite Hidle, Hk. reflexivity.
  - intros Hne. destruct (render_on_pool url l s Hne) as (k & -> & Hk & _).
    by exists k.
Qed.

(** ** Between acquire and return *)

Lemma serve_unfold p url l s :
  serve p url l s =
  finally_res (catch_res (drive p url (mkLocals false) s) classify) (release_of p).
Proof. reflexivity. Qed.

Lemma release_of_unfold p l s :
  release_of p l s = shield_res (_manage_page p (reopen l) l s).
Proof. reflexivity. Qed.

(** [serve] is the guarded block, then the release step with the flag the
    block left, whatever the outcome of the block. *)
Lemma serve_run p url l s script :
  run (serve p url l s) script =
  after (run (try_except (drive p url) classify (mkLocals false) s) script)
    (λ o1, merge o1 <$>
           (as_shielded <$>
            run (_manage_page p (reopen (locals o1)) (locals o1) (final o1))
                (rest o1))).
Proof.
  rewrite serve_unfold, run_finally. unfold try_except.
  destruct (run (catch_res _ _) script) as [o1|]; [|done]. simpl.
  by rewrite release_of_unfold, run_shield.
Qed.

Local Ltac answer script :=
  destruct script as [|[?|[]] script]; cbn;
  repeat match goal with
         | |- context [contains ?a ?b] => destruct (contains a b) eqn:?; cbn
         end.

Local Ltac finish_run :=
  intros; simplify_eq/=; rewrite ?dom_alter_L;
  repeat match goal with
         | H : contains _ _ = _ |- _ => rewrite H
         end;
  split_and?; try done; try lia; repeat constructor.

(** The guarded block, lines 54-79, run to its end. *)
Lemma block_run p url s script o :
  run (try_except (drive p url) classify (mkLocals false) s) script = Some o →
  (_pages (final o) = _pages s ∧
   _idle_pages (final o) = _idle_pages s ∧
   _unfinished_tasks (final o) = _unfinished_tasks s ∧
   dom (heap (final o)) = dom (heap s)) ∧
  Forall (λ ev : event, ev.1.1 = false) (trace o) ∧
  (length script ≤ length (rest o) + 4)%nat ∧
  match last (trace o) with
  | Some (_, c, RRaise e) =>
      match recognized c e with
      | Some msg =>
          result o = inl (TemporaryBrowserFailure msg) ∧ reopen (locals o) = true
      | None => result o = inl e ∧ reopen (locals o) = false
      end
  | Some (_, _, ROk html) => result o = inr html ∧ reopen (locals o) = false
  | None => False
  end.
Proof.
  unfold try_except, drive, bind, wait_for, await, classify, set_reopen, raise, ret.
  cbn.
  answer script; [done|..]; try (by finish_run).
  answer script; [done|..]; try (by finish_run).
  answer script; [done|..]; try (by finish_run).
  answer script; [done|..]; try (by finish_run).
Qed.

Lemma block_total p url s script :
  (4 ≤ length script)%nat →
  is_Some (run (try_except (drive p url) classify (mkLocals false) s) script).
Proof.
  unfold try_except, drive, bind, wait_for, await, classify, set_reopen, raise, ret.
  cbn. intros Hlen.
  answer script; [simpl in Hlen; lia|..]; try done.
  answer script; [simpl in Hlen; lia|..]; try done.
  answer script; [simpl in Hlen; lia|..]; try done.
  answer script; [simpl in Hlen; lia|..]; try done.
Qed.

(** ** The release step *)

Local Ltac answer_next :=
  lazymatch goal with
  | |- context [match ?sc with [] => _ | _ :: _ => _ end] =>
      is_var sc; destruct sc as [|[?|[]] ?]; cbn
  | |- context [run _ ?sc] =>
      is_var sc; destruct sc as [|[?|[]] ?]; cbn
  end;
  repeat match goal with
         | |- context [contains ?a ?b] => destruct (contains a b) eqn:?; cbn
         end.

Local Ltac explore :=
  repeat first
    [ match goal with |- None = Some _ → _ => done end
    | match goal with
      | |- context [decide (?p ∈ ?X)] => destruct (decide (p ∈ X)); cbn
      end
    | match goal with
      | |- context [(?a <? ?b)] => destruct (a <? b) eqn:?; cbn
      end
    | answer_next ].

Local Ltac unfold_manage_page :=
  unfold _manage_page, recycle, bind, task_done, read_page, new_page, put,
    pages_add, pages_remove, await, ret; cbn.

(** What a run of [_manage_page] can do to the pool, whatever its calls come
    back with: it never puts [p] back when [reopen] is set, and a page it
    adds to the queue did not exist before. *)
Lemma manage_page_frame p b l s script o :
  run (_manage_page p b l s) script = Some o →
  locals o = l ∧
  dom (heap s) ⊆ dom (heap (final o)) ∧
  (∀ x, x ∈ _idle_pages (final o) →
        x ∈ _idle_pages s ∨ (x = p ∧ b = false) ∨ x ∉ dom (heap s)).
Proof.
  pose proof (is_fresh (dom (heap s))) as Hfresh.
  unfold_manage_page.
  destruct (_unfinished_tasks s) as [|n]; cbn;
    [|destruct (from_option websocket false (heap s !! p)); destruct b; cbn];
    explore.
  all: intros; simplify_eq/=; rewrite ?dom_insert_L, ?dom_alter_L;
    split_and!; try done;
    try (intros x; rewrite ?elem_of_app, ?list_elem_of_singleton);
    set_solver.
Qed.

(** A run of [_manage_page] in which every call returned: the page is back
    in the queue, or a new page has taken its place. *)
Lemma manage_page_undisturbed p b l s script o :
  run (_manage_page p b l s) script = Some o →
  Forall (λ ev : event, is_ok (ev.2) = true) (trace o) →
  p ∈ _pages s →
  (0 < _unfinished_tasks s)%nat →
  result o = inr tt ∧
  _unfinished_tasks (final o) = _unfinished_tasks s ∧
  ((b = false ∧
    _idle_pages (final o) = _idle_pages s ++ [p] ∧
    _pages (final o) = _pages s) ∨
   (∃ q, (q ∉ dom (heap s)) ∧
         _idle_pages (final o) = _idle_pages s ++ [q] ∧
         _pages (final o) = {[q]} ∪ (_pages s ∖ {[p]}))).
Proof.
  pose proof (is_fresh (dom (heap s))) as Hfresh.
  intros Hrun Hok Hp Hun. revert Hrun Hok.
  unfold_manage_page.
  destruct (_unfinished_tasks s) as [|n]; [lia|]; cbn.
  destruct (from_option websocket false (heap s !! p)); destruct b; cbn;
    explore.
  all: intros ? Hok; simplify_eq/=;
    repeat match goal with
           | H : Forall _ (_ :: _) |- _ => apply Forall_cons in H as [? H]
           end;
    try done.
  all: split_and!; [done..|].
  all: first [ left; done
             | right; eexists; split_and!; [|done..];
               by rewrite ?dom_alter_L ].
Qed.

Lemma manage_page_total p b l s script :
  (5 ≤ length script)%nat → is_Some (run (_manage_page p b l s) script).
Proof.
  intros Hlen. unfold_manage_page.
  destruct (_unfinished_tasks s) as [|n]; cbn;
    [|destruct (from_option websocket false (heap s !! p)); destruct b; cbn];
    explore; try done; simpl in Hlen; lia.
Qed.

(** *** The release step when its calls return *)

Lemma alter_lookup_Some {A} (f : A → A) (p : ref) (m : gmap ref A) x :
  m !! p = Some x → alter f p m = <[p := f x]> m.
Proof.
  intros Hx. apply map_eq. intros i. destruct (decide (i = p)) as [->|Hne].
  - by rewrite lookup_alter_eq, lookup_insert_eq, Hx.
  - by rewrite lookup_alter_ne, lookup_insert_ne.
Qed.

(** Lines 84-88. *)
Lemma manage_page_settle p b l s n pg a d script :
  heap s !! p = Some pg →
  _unfinished_tasks s = S n →
  run (_manage_page p b l s) (settle_script b a d pg ++ script) =
  prepend (settle_trace p b a d pg) <$>
  run (recycle p b l
         (mkPool (_pages s) (_idle_pages s) n
                 (<[p := settled p b a d pg]> (heap s))))
      script.
Proof.
  intros Hpg Hun.
  unfold _manage_page, bind, task_done, read_page, await, ret,
    settle_script, settle_trace, settled.
  cbn. rewrite Hun. cbn. rewrite Hpg. cbn.
  destruct (websocket pg); [destruct b|]; cbn.
  - rewrite (alter_lookup_Some _ _ _ _ Hpg).
    by destruct (run _ script) as [[]|].
  - rewrite (alter_lookup_Some _ _ _ _ Hpg).
    rewrite alter_insert_eq.
    by destruct (run _ script) as [[]|].
  - rewrite insert_id by done. by rewrite fmap_prepend_nil.
Qed.

(** Lines 90-92. *)
Lemma recycle_fast p l s pg script :
  heap s !! p = Some pg →
  iteration pg < MAX_ITERATIONS →
  run (recycle p false l s) script =
  Some (mkOutcome (inr tt) l
          (mkPool (_pages s) (_idle_pages s ++ [p])
                  (S (_unfinished_tasks s)) (heap s))
          [] script).
Proof.
  intros Hpg Hit. unfold recycle, bind, read_page, put. cbn. rewrite Hpg. cbn.
  by rewrite (proj2 (Z.ltb_lt _ _) Hit).
Qed.

(** Lines 94-100. *)
Lemma recycle_slow p b l s pg c i z script :
  heap s !! p = Some pg →
  b = true ∨ MAX_ITERATIONS ≤ iteration pg →
  p ∈ _pages s →
  run (recycle p b l s) (ROk c :: ROk i :: ROk z :: script) =
  Some (mkOutcome (inr tt) l
          (mkPool ({[fresh (dom (heap s))]} ∪ (_pages s ∖ {[p]}))
                  (_idle_pages s ++ [fresh (dom (heap s))])
                  (S (_unfinished_tasks s))
                  (<[fresh (dom (heap s)) := fresh_page i]>
                     (<[p := page_eff (Close p) (ROk c) pg]> (heap s))))
          [(false, Plain (Close p), ROk c);
           (false, Plain NewPage, ROk i);
           (false, Plain (Sleep 100), ROk z)]
          script).
Proof.
  intros Hpg Hslow Hp.
  unfold recycle, bind, read_page, put, pages_remove, pages_add, new_page,
    await, ret.
  cbn. rewrite Hpg. cbn.
  assert (negb b && (iteration pg <? MAX_ITERATIONS) = false) as ->.
  { destruct Hslow as [->|Hge]; [done|].
    rewrite (proj2 (Z.ltb_ge _ _) Hge). by destruct b. }
  cbn. rewrite decide_True by done. cbn.
  rewrite dom_alter_L, (alter_lookup_Some _ _ _ _ Hpg). done.
Qed.

(** ** A whole [render] call that got a page *)

Lemma render_run url l s p q script :
  _pages s ≠ ∅ →
  _idle_pages s = p :: q →
  run (render url l s) script =
  log (false, WaitFor QueueGet 10000, ROk "") <$>
  run (serve p url l (mkPool (_pages s) q (_unfinished_tasks s) (heap s))) script.
Proof.
  intros Hne Hidle.
  destruct (render_on_pool url l s Hne) as (k & -> & _ & Hk).
  simpl. unfold queue_reply. rewrite Hidle. by rewrite (Hk "" s p q Hidle).
Qed.

(** The call falls into the guarded block and the release step. *)
Lemma render_parts url l s p q script o :
  _pages s ≠ ∅ →
  _idle_pages s = p :: q →
  run (render url l s) script = Some o →
  ∃ o1 o2,
    run (try_except (drive p url) classify (mkLocals false)
           (mkPool (_pages s) q (_unfinished_tasks s) (heap s))) script
      = Some o1 ∧
    run (_manage_page p (reopen (locals o1)) (locals o1) (final o1)) (rest o1)
      = Some o2 ∧
    result o = match result o2 with inl e => inl e | inr _ => result o1 end ∧
    locals o = locals o2 ∧
    final o = final o2 ∧
    rest o = rest o2 ∧
    trace o = (false, WaitFor QueueGet 10000, ROk "")
                :: trace o1 ++ (shielded <$> trace o2).
Proof.
  intros Hne Hidle. rewrite (render_run url l s p q) by done.
  rewrite serve_run.
  destruct (run (try_except _ _ _ _) script) as [o1|] eqn:Ho1; [|done]. simpl.
  destruct (run (_manage_page _ _ _ _) (rest o1)) as [o2|] eqn:Ho2; [|done].
  simpl. intros [= <-]. exists o1, o2. split_and!; done.
Qed.

Lemma undisturbed_shielded tr1 tr2 :
  release_undisturbed (tr1 ++ (shielded <$> tr2)) →
  Forall (λ ev : event, is_ok (ev.2) = true) tr2.
Proof.
  unfold release_undisturbed. rewrite Forall_app, Forall_fmap.
  intros [_ Hok]. eapply Forall_impl; [exact Hok|].
  intros [[sh c] r] Hev. by apply Hev.
Qed.

Lemma wf_head s p q :
  wf s → _idle_pages s = p :: q →
  p ∈ _pages s ∧ (p ∉ q) ∧ p ∈ dom (heap s) ∧ _pages s ≠ ∅ ∧
  (0 < _unfinished_tasks s)%nat.
Proof.
  intros (Hnd & Hin & Hheap & Hun) Hidle. rewrite Hidle in *.
  apply NoDup_cons in Hnd as [Hp _]. apply Forall_cons in Hin as [Hpp _].
  simpl in Hun. split_and!; [done|done|set_solver|set_solver|lia].
Qed.

(** C2 (amended).  Once [render] has taken page [p] from the queue, the
    release step is run however lines 54-79 end: normally, with any
    exception, or with the cancellation of the call ([CancelledError] at any
    of its suspensions).  A script of nine replies is always enough for the
    call to end; and provided no call made from inside the release step
    itself raises, the count of unfinished tasks is back where it was and
    [p] is either back at the end of the idle queue, or out of [_pages] with
    a page that did not exist before in its place in both. *)
Theorem release_on_every_exit url l s p q script :
  wf s →
  _idle_pages s = p :: q →
  ((9 ≤ length script)%nat → is_Some (run (render url l s) script)) ∧
  (∀ o, run (render url l s) script = Some o →
        release_undisturbed (trace o) →
        _unfinished_tasks (final o) = _unfinished_tasks s ∧
        ((_idle_pages (final o) = q ++ [p] ∧ _pages (final o) = _pages s) ∨
         (∃ p', (p' ∉ dom (heap s)) ∧
                _idle_pages (final o) = q ++ [p'] ∧
                _pages (final o) = {[p']} ∪ (_pages s ∖ {[p]})))).
Proof.
  intros Hwf Hidle.
  destruct (wf_head s p q Hwf Hidle) as (Hp & Hpq & Hdom & Hne & Hun).
  split.
  - intros Hlen. rewrite (render_run url l s p q) by done.
    rewrite serve_run. apply fmap_is_Some.
    set (s1 := mkPool _ _ _ _).
    destruct (block_total p url s1 script) as [o1 Ho1]; [lia|].
    rewrite Ho1. simpl.
    destruct (block_run p url s1 script o1 Ho1) as (_ & _ & Hrest & _).
    destruct (manage_page_total p (reopen (locals o1)) (locals o1) (final o1)
                (rest o1)) as [o2 Ho2]; [lia|].
    by rewrite Ho2.
  - intros o Hrun Hok.
    destruct (render_parts url l s p q script o Hne Hidle Hrun)
      as (o1 & o2 & Ho1 & Ho2 & _ & _ & -> & _ & Htr).
    destruct (block_run _ _ _ _ _ Ho1) as ((Hpg & Hid & Hunf & Hheap) & _).
    simpl in Hpg, Hid, Hunf, Hheap.
    rewrite Htr in Hok.
    apply (undisturbed_shielded (_ :: trace o1)) in Hok.
    destruct (manage_page_undisturbed _ _ _ _ _ _ Ho2 Hok)
      as (_ & Hu & Hcase); [by rewrite Hpg|by rewrite Hunf|].
    rewrite Hunf in Hu. split; [done|].
    rewrite Hpg, Hid, Hheap in Hcase.
    destruct Hcase as [(_ & ? & ?)|(p' & ? & ? & ?)]; [by left|right; by exists p'].
Qed.

(** C3.  [serve] runs lines 54-79 and then the release step with the
    [reopen] the block left; the caller gets the outcome of the block unless
    the release step itself raises.  The block ends at the first call that
    raises: a failure the FailureClassifier recognises becomes
    [TemporaryBrowserFailure] and sets [reopen]; any other exception is
    raised as it is with [reopen] still false; and when every call returns,
    the HTML of [page.wait()] is returned with [reopen] false. *)
Theorem failure_classifier p url l s script :
  run (serve p url l s) script =
    after (run (try_except (drive p url) classify (mkLocals false) s) script)
      (λ o1, merge o1 <$>
             (as_shielded <$>
              run (_manage_page p (reopen (locals o1)) (locals o1) (final o1))
                  (rest o1))) ∧
  ∀ o, run (try_except (drive p url) classify (mkLocals false) s) script = Some o →
       match last (trace o) with
       | Some (_, c, RRaise e) =>
           match recognized c e with
           | Some msg =>
               result o = inl (TemporaryBrowserFailure msg) ∧
               reopen (locals o) = true
           | None => result o = inl e ∧ reopen (locals o) = false
           end
       | Some (_, _, ROk html) => result o = inr html ∧ reopen (locals o) = false
       | None => False
       end.
Proof.
  split; [apply serve_run|].
  intros o Ho. by destruct (block_run p url s script o Ho) as (_ & _ & _ & ?).
Qed.

(** ** The two ways out of the release step *)

(** C4 (amended).  With [reopen] false and the iteration counter, as line 90
    reads it, below [MAX_ITERATIONS], the release step puts the same page at
    the end of the idle queue: [_pages] is untouched and the only calls made
    are the [navigate('about:blank')] and [detach()] of an open transport
    (here returning), so nothing is closed and nothing is created.
    [_manage_page] does not write the iteration counter: the Page is left as
    these two calls leave it, and with the transport closed no call is made
    and the Page object is exactly what it was. *)
Theorem release_returns_page p l s n pg a d script :
  heap s !! p = Some pg →
  _unfinished_tasks s = S n →
  iteration (settled p false a d pg) < MAX_ITERATIONS →
  run (_manage_page p false l s) (settle_script false a d pg ++ script) =
    Some (mkOutcome (inr tt) l
            (mkPool (_pages s) (_idle_pages s ++ [p]) (S n)
                    (<[p := settled p false a d pg]> (heap s)))
            (settle_trace p false a d pg) script) ∧
  (websocket pg = false →
   settle_trace p false a d pg = [] ∧
   <[p := settled p false a d pg]> (heap s) = heap s).
Proof.
  intros Hpg Hun Hit. split.
  - rewrite (manage_page_settle p false l s n pg a d script Hpg Hun).
    rewrite (recycle_fast p l _ (settled p false a d pg));
      [|simpl; by rewrite lookup_insert_eq|done].
    simpl. unfold prepend. simpl. by rewrite app_nil_r.
  - intros Hws. unfold settle_trace, settled. rewrite Hws.
    split; [done|]. by apply insert_id.
Qed.

Lemma fresh_insert_present (p : ref) (pg : Page) (m : gmap ref Page) :
  is_Some (m !! p) → fresh (dom (<[p := pg]> m)) = fresh (dom m).
Proof.
  intros Hp. rewrite dom_insert_L. f_equal.
  apply elem_of_dom in Hp. set_solver.
Qed.

(** C5.  With [reopen] set, or with the iteration counter as line 90 reads it
    at [MAX_ITERATIONS] or above, and the calls of the release step
    returning: the page is closed and taken out of [_pages]; the Driver makes
    one new page; after a sleep of 100 ms the new page, with iteration
    counter 0, is put at the end of the idle queue and into [_pages]; the
    page it replaces is another object.  And whatever the calls of a [render]
    come back with, a page for which [reopen] was set is not in the idle
    queue when the call ends. *)
Theorem release_replaces_page :
  (∀ p b l s n pg a d c i z script,
     heap s !! p = Some pg →
     _unfinished_tasks s = S n →
     p ∈ _pages s →
     b = true ∨ MAX_ITERATIONS ≤ iteration (settled p b a d pg) →
     run (_manage_page p b l s)
         (settle_script b a d pg ++ ROk c :: ROk i :: ROk z :: script) =
       Some (mkOutcome (inr tt) l
               (mkPool ({[fresh (dom (heap s))]} ∪ (_pages s ∖ {[p]}))
                       (_idle_pages s ++ [fresh (dom (heap s))])
                       (S n)
                       (<[fresh (dom (heap s)) := fresh_page i]>
                          (<[p := page_eff (Close p) (ROk c)
                                    (settled p b a d pg)]> (heap s))))
               (settle_trace p b a d pg ++
                [(false, Plain (Close p), ROk c);
                 (false, Plain NewPage, ROk i);
                 (false, Plain (Sleep 100), ROk z)])
               script) ∧
     fresh (dom (heap s)) ≠ p ∧
     iteration (fresh_page i) = 0) ∧
  (∀ url l s p q script o,
     wf s →
     _idle_pages s = p :: q →
     run (render url l s) script = Some o →
     reopen (locals o) = true →
     p ∉ _idle_pages (final o)).
Proof.
  split.
  - intros p b l s n pg a d c i z script Hpg Hun Hp Hslow. split_and!; [| |done].
    + rewrite (manage_page_settle p b l s n pg a d _ Hpg Hun).
      rewrite (recycle_slow p b l _ (settled p b a d pg));
        [|simpl; by rewrite lookup_insert_eq|done|done].
      simpl. rewrite fresh_insert_present by (by rewrite Hpg).
      rewrite insert_insert_eq. reflexivity.
    + intros Heq. apply (is_fresh (dom (heap s))). rewrite Heq.
      apply elem_of_dom. by rewrite Hpg.
  - intros url l s p q script o Hwf Hidle Hrun Hre.
    destruct (wf_head s p q Hwf Hidle) as (Hp & Hpq & Hdom & Hne & Hun).
    destruct (render_parts url l s p q script o Hne Hidle Hrun)
      as (o1 & o2 & Ho1 & Ho2 & _ & Hl & -> & _ & _).
    destruct (block_run _ _ _ _ _ Ho1) as ((_ & Hid & _ & Hheap) & _).
    simpl in Hid, Hheap.
    destruct (manage_page_frame _ _ _ _ _ _ Ho2) as (Hl2 & _ & Hin).
    rewrite Hl, Hl2 in Hre. rewrite Hre in Hin.
    intros Hback. destruct (Hin p Hback) as [Hq|[[_ ?]|Hnew]]; [|done|].
    + by rewrite Hid in Hq.
    + by rewrite Hheap in Hnew.
Qed.

(** ** A render that times out *)

Lemma block_wait_raises p url s pg va vl vn e script :
  heap s !! p = Some pg →
  recognized (WaitFor (Wait p) (PRERENDER_TIMEOUT * 1000)) e = None →
  (∀ msg, e ≠ RuntimeError msg) →
  run (try_except (drive p url) classify (mkLocals false) s)
      (ROk va :: ROk vl :: ROk vn :: RRaise e :: script) =
  Some (mkOutcome (inl e) (mkLocals false)
          (mkPool (_pages s) (_idle_pages s) (_unfinished_tasks s)
                  (<[p := driven p url va vl vn e pg]> (heap s)))
          [(false, Plain (Attach p), ROk va);
           (false, WaitFor (Listen p) 1000, ROk vl);
           (false, Plain (Navigate p url), ROk vn);
           (false, WaitFor (Wait p) (PRERENDER_TIMEOUT * 1000), RRaise e)]
          script).
Proof.
  intros Hpg Hrec Hrt.
  unfold try_except, drive, bind, wait_for, await, classify, set_reopen, raise, ret.
  cbn. unfold driven.
  rewrite (alter_lookup_Some _ _ _ _ Hpg), !alter_insert_eq.
  destruct e; try done. by destruct (Hrt msg).
Qed.

(** C6.  When every call up to [page.wait()] returns and the wait for it
    expires, [render] raises the [asyncio.TimeoutError] itself, which is not
    a [TemporaryBrowserFailure], and [reopen] is false.  With the calls of
    the release step returning, the page is then put back at the end of the
    idle queue, nothing being closed or created, when its iteration counter
    as line 90 reads it is below [MAX_ITERATIONS]; and it is replaced when
    the counter has reached [MAX_ITERATIONS]. *)
Theorem render_timeout url l s p q n pg va vl vn a d script :
  _idle_pages s = p :: q →
  p ∈ _pages s →
  heap s !! p = Some pg →
  _unfinished_tasks s = S n →
  let pg1 := driven p url va vl vn TimeoutError pg in
  let pg2 := settled p false a d pg1 in
  let body := [ROk va; ROk vl; ROk vn; RRaise TimeoutError] in
  let seen :=
    [(false, WaitFor QueueGet 10000, ROk "");
     (false, Plain (Attach p), ROk va);
     (false, WaitFor (Listen p) 1000, ROk vl);
     (false, Plain (Navigate p url), ROk vn);
     (false, WaitFor (Wait p) (PRERENDER_TIMEOUT * 1000), RRaise TimeoutError)] in
  (∀ msg, TimeoutError ≠ TemporaryBrowserFailure msg) ∧
  (iteration pg2 < MAX_ITERATIONS →
   run (render url l s) (body ++ settle_script false a d pg1 ++ script) =
   Some (mkOutcome (inl TimeoutError) (mkLocals false)
           (mkPool (_pages s) (q ++ [p]) (S n) (<[p := pg2]> (heap s)))
           (seen ++ (shielded <$> settle_trace p false a d pg1))
           script)) ∧
  (MAX_ITERATIONS ≤ iteration pg2 →
   ∀ c i z,
     run (render url l s)
         (body ++ settle_script false a d pg1 ++
          ROk c :: ROk i :: ROk z :: script) =
     Some (mkOutcome (inl TimeoutError) (mkLocals false)
             (mkPool ({[fresh (dom (heap s))]} ∪ (_pages s ∖ {[p]}))
                     (q ++ [fresh (dom (heap s))])
                     (S n)
                     (<[fresh (dom (heap s)) := fresh_page i]>
                        (<[p := page_eff (Close p) (ROk c) pg2]> (heap s))))
             (seen ++ (shielded <$>
                         settle_trace p false a d pg1 ++
                         [(false, Plain (Close p), ROk c);
                          (false, Plain NewPage, ROk i);
                          (false, Plain (Sleep 100), ROk z)]))
             script)) ∧
  (∀ script' o,
     run (render url l s) (body ++ script') = Some o →
     reopen (locals o) = false ∧
     (release_undisturbed (trace o) → result o = inl TimeoutError)).
Proof.
  intros Hidle Hp Hpg Hun pg1 pg2 body seen.
  assert (_pages s ≠ ∅) as Hne by set_solver.
  set (s1 := mkPool (_pages s) q (_unfinished_tasks s) (heap s)).
  assert (∀ msg, TimeoutError ≠ RuntimeError msg) as Hrt by done.
  pose proof (λ script',
    block_wait_raises p url s1 pg va vl vn TimeoutError script' Hpg eq_refl Hrt)
    as Hblock.
  split_and!; [done| | |].
  - intros Hit. rewrite (render_run url l s p q) by done.
    rewrite serve_run. unfold body. cbn [app]. rewrite Hblock. simpl.
    rewrite (manage_page_settle p false _ _ n pg1 a d script);
      [|simpl; by rewrite lookup_insert_eq|done].
    rewrite (recycle_fast p _ _ pg2); [|simpl; by rewrite lookup_insert_eq|done].
    simpl. rewrite insert_insert_eq. unfold prepend, as_shielded, merge, log.
    simpl. by rewrite app_nil_r.
  - intros Hit c i z. rewrite (render_run url l s p q) by done.
    rewrite serve_run. unfold body. cbn [app]. rewrite Hblock. simpl.
    rewrite (manage_page_settle p false _ _ n pg1 a d _);
      [|simpl; by rewrite lookup_insert_eq|done].
    rewrite (recycle_slow p false _ _ pg2);
      [|simpl; by rewrite lookup_insert_eq|by right|done].
    simpl. rewrite !insert_insert_eq.
    rewrite fresh_insert_present by (by rewrite Hpg).
    reflexivity.
  - intros script' o Hrun.
    destruct (render_parts url l s p q _ o Hne Hidle Hrun)
      as (o1 & o2 & Ho1 & Ho2 & Hres & Hl & _ & _ & Htr).
    unfold body in Ho1. cbn [app] in Ho1. rewrite Hblock in Ho1.
    injection Ho1 as <-. simpl in Ho2, Hres.
    destruct (manage_page_frame _ _ _ _ _ _ Ho2) as (Hl2 & _).
    split; [by rewrite Hl, Hl2|].
    intros Hok. rewrite Htr in Hok.
    apply (undisturbed_shielded (_ :: _)) in Hok.
    destruct (manage_page_undisturbed _ _ _ _ _ _ Ho2 Hok) as (Hr2 & _);
      [done|simpl; lia|].
    by rewrite Hres, Hr2.
Qed.

(** ** Shutdown *)

Lemma close_all_run ps l s script o :
  run (close_all ps l s) script = Some o →
  _pages (final o) = _pages s ∧
  _idle_pages (final o) = _idle_pages s ∧
  _unfinished_tasks (final o) = _unfinished_tasks s ∧
  (result o = inr tt → ∀ p, p ∈ ps → closed_in (trace o) p).
Proof.
  revert s script o. induction ps as [|p ps IH]; intros s script o; simpl.
  - intros [= <-]. simpl. split_and!; [done..|]. intros _ p Hp. set_solver.
  - unfold bind, await. cbn. destruct script as [|[v|e] script]; [done|..]; cbn.
    + destruct (run (close_all ps l _) script) as [o'|] eqn:Hrun; [|done].
      simpl. intros [= <-]. simpl.
      destruct (IH _ _ _ Hrun) as (Hpg & Hid & Hunf & Hcl). simpl in *.
      split_and!; [done..|]. intros Hres x Hx.
      apply elem_of_cons in Hx as [->|Hx].
      * exists v. set_solver.
      * destruct (Hcl Hres x Hx) as [w Hw]. exists w. set_solver.
    + intros [= <-]. simpl. split_and!; done.
Qed.

Lemma render_on_idle url l sf s p q :
  _pages sf = _pages s →
  _idle_pages sf = _idle_pages s →
  _unfinished_tasks sf = _unfinished_tasks s →
  p ∈ _pages s →
  _idle_pages s = p :: q →
  ∃ k k',
    render url l sf = Susp false (WaitFor QueueGet 10000) sf k ∧
    ∀ v, k (ROk v) sf =
         Susp false (Plain (Attach p))
              (mkPool (_pages s) q (_unfinished_tasks s) (heap sf)) k'.
Proof.
  intros Hpg Hid Hunf Hp Hidle.
  destruct (render_on_pool url l sf) as (k & Hk & _ & Hget);
    [rewrite Hpg; set_solver|].
  eexists k, _. split; [done|]. intros v.
  rewrite (Hget v sf p q) by (by rewrite Hid).
  rewrite Hpg, Hunf. reflexivity.
Qed.

(** C9.  [shutdown] calls [page.close()] on the pages of [_pages] and leaves
    [_pages] and the idle queue as they are; when it ends normally every
    page of [_pages] has been closed.  A [render] after that does not raise
    'No browser available': it suspends on the queue, and woken with the
    queue as [shutdown] left it, it takes the first idle page, one of those
    that were closed, and its next step is [page.attach()] on it. *)
Theorem shutdown_keeps_pool l s script o :
  wf s →
  run (shutdown l s) script = Some o →
  _pages (final o) = _pages s ∧
  _idle_pages (final o) = _idle_pages s ∧
  (result o = inr tt → ∀ p, p ∈ _pages s → closed_in (trace o) p) ∧
  (∀ url l' p q,
     _idle_pages s = p :: q →
     p ∈ _pages s ∧
     ∃ k k',
       render url l' (final o) = Susp false (WaitFor QueueGet 10000) (final o) k ∧
       ∀ v, k (ROk v) (final o) =
            Susp false (Plain (Attach p))
                 (mkPool (_pages s) q (_unfinished_tasks s) (heap (final o))) k').
Proof.
  intros Hwf.
  unfold shutdown, bind, get_pool. cbn. rewrite !run_bind.
  destruct (run (close_all _ l s) script) as [o1|] eqn:Hclose; [|done].
  destruct (close_all_run _ _ _ _ _ Hclose) as (Hpg & Hid & Hunf & Hcl).
  assert (∀ url l' p q,
            _idle_pages s = p :: q →
            p ∈ _pages s ∧
            ∃ k k',
              render url l' (final o1)
                = Susp false (WaitFor QueueGet 10000) (final o1) k ∧
              ∀ v, k (ROk v) (final o1) =
                   Susp false (Plain (Attach p))
                        (mkPool (_pages s) q (_unfinished_tasks s)
                                (heap (final o1))) k') as Hnext.
  { intros url l' p q Hidle.
    destruct (wf_head s p q Hwf Hidle) as (Hp & _).
    split; [done|]. by apply render_on_idle. }
  simpl. destruct (result o1) as [e|[]] eqn:Hres1; simpl.
  - intros [= <-]. simpl. split_and!; done.
  - unfold await. cbn.
    destruct (rest o1) as [|[w|e] script']; [done|..]; cbn;
      intros [= <-]; simpl; (split_and!; [done|done| |done]); [|done].
    intros _ p Hp. destruct (Hcl eq_refl p) as [w' Hw];
      [by apply elem_of_elements|].
    exists w'. set_solver.
Qed.

(** * The rest of the module *)

(** ** [bootstrap] *)

Lemma quiescent_size s : quiescent s → size (_pages s) = length (_idle_pages s).
Proof. intros (Hnd & -> & _). by apply size_list_to_set. Qed.

Lemma quiescent_wf s : quiescent s → wf s.
Proof.
  intros (Hnd & Hpg & Hheap & Hun). unfold wf. split_and!; [done| |done|lia].
  apply Forall_forall. intros p Hp. rewrite Hpg. by apply elem_of_list_to_set.
Qed.

Lemma quiescent_init : quiescent init_pool.
Proof. unfold quiescent. simpl. split_and!; [constructor|set_solver..|done]. Qed.

(** One round of the loop that went through. *)
Lemma quiescent_round s tab_id :
  quiescent s →
  quiescent (mkPool ({[fresh (dom (heap s))]} ∪ _pages s)
                    (_idle_pages s ++ [fresh (dom (heap s))])
                    (S (_unfinished_tasks s))
                    (<[fresh (dom (heap s)) := fresh_page tab_id]> (heap s))).
Proof.
  intros (Hnd & Hpg & Hheap & Hun).
  pose proof (is_fresh (dom (heap s))) as Hfresh.
  assert (fresh (dom (heap s)) ∉ _idle_pages s).
  { intros Hin. apply Hfresh, Hheap. rewrite Hpg. by apply elem_of_list_to_set. }
  unfold quiescent. simpl. rewrite dom_insert_L, list_to_set_app_L. simpl.
  split_and!.
  - apply NoDup_app. split_and!; [done|set_solver|apply NoDup_singleton].
  - rewrite Hpg. set_solver.
  - set_solver.
  - rewrite length_app. simpl. lia.
Qed.

Lemma bootstrap_loop_ok k l s script o :
  quiescent s →
  run (bootstrap_loop k l s) script = Some o →
  result o = inr tt →
  quiescent (final o) ∧
  ∃ new, _idle_pages (final o) = _idle_pages s ++ new ∧
         length new = k ∧
         (∀ p, p ∈ new → p ∉ dom (heap s)) ∧
         dom (heap s) ⊆ dom (heap (final o)).
Proof.
  revert s script o. induction k as [|k IH]; intros s script o Hq Hrun Hres.
  - simpl in Hrun. injection Hrun as <-. simpl. split; [done|].
    exists []. rewrite app_nil_r. split_and!; [done|done|set_solver|done].
  - simpl in Hrun. destruct script as [|[tab_id|e] script]; [done| |].
    + cbn in Hrun. destruct (run _ script) as [o'|] eqn:Hrun'; [|done].
      injection Hrun as <-. simpl in *.
      destruct (IH _ _ _ (quiescent_round s tab_id Hq) Hrun' Hres)
        as (Hq' & new & Hidle & Hlen & Hnew & Hdom).
      simpl in Hidle, Hnew, Hdom. rewrite dom_insert_L in Hnew, Hdom.
      split; [done|]. exists (fresh (dom (heap s)) :: new).
      split_and!.
      * by rewrite Hidle, <- (assoc_L (++)).
      * simpl. by rewrite Hlen.
      * intros p [->|Hp]%elem_of_cons; [apply is_fresh|].
        specialize (Hnew p Hp). set_solver.
      * set_solver.
    + cbn in Hrun. injection Hrun as <-. done.
Qed.

(** X1.  A [bootstrap] that goes through, started on a pool with no call in
    it, adds [CONCURRENCY_PER_WORKER] pages that did not exist before, at the
    end of the idle queue and in [_pages], and leaves a pool with no call in
    it; so a second [bootstrap] adds as many again. *)
Theorem bootstrap_builds_pool l s script o :
  quiescent s →
  run (bootstrap l s) script = Some o →
  result o = inr tt →
  quiescent (final o) ∧
  size (_pages (final o))
    = (size (_pages s) + Z.to_nat CONCURRENCY_PER_WORKER)%nat ∧
  ∃ new, _idle_pages (final o) = _idle_pages s ++ new ∧
         length new = Z.to_nat CONCURRENCY_PER_WORKER ∧
         ∀ p, p ∈ new → p ∉ dom (heap s).
Proof.
  intros Hq Hrun Hres.
  destruct (bootstrap_loop_ok _ _ _ _ _ Hq Hrun Hres)
    as (Hq' & new & Hidle & Hlen & Hnew & _).
  split_and!; [done| |by exists new].
  rewrite !quiescent_size by done. rewrite Hidle, length_app. lia.
Qed.

(** X2.  When a [new_page()] of [bootstrap] raises, [bootstrap] raises that
    exception at once: the pages made in the rounds before stay in the idle
    queue and in [_pages], no further page is asked for, and the pool has no
    call in it. *)
Theorem bootstrap_stops_at_failure (oks : list string) e l s script :
  quiescent s →
  (length oks < Z.to_nat CONCURRENCY_PER_WORKER)%nat →
  ∃ o, run (bootstrap l s) ((ROk <$> oks) ++ RRaise e :: script) = Some o ∧
       result o = inl e ∧
       rest o = script ∧
       length (trace o) = S (length oks) ∧
       quiescent (final o) ∧
       size (_pages (final o)) = (size (_pages s) + length oks)%nat.
Proof.
  unfold bootstrap. generalize (Z.to_nat CONCURRENCY_PER_WORKER). intros k.
  revert k s. induction oks as [|v oks IH]; intros k s Hq Hlen.
  - destruct k as [|k]; [simpl in Hlen; lia|]. cbn.
    eexists. split; [reflexivity|]. simpl.
    split_and!; [done..|]. lia.
  - destruct k as [|k]; [simpl in Hlen; lia|]. cbn.
    destruct (IH k _ (quiescent_round s v Hq)) as (o & Hrun & Hres & Hrest & Htr & Hq' & Hsz).
    { simpl in Hlen. lia. }
    rewrite Hrun. eexists. split; [reflexivity|]. simpl.
    split_and!; [done|done|by rewrite Htr|done|].
    rewrite Hsz. simpl.
    pose proof (quiescent_size _ (quiescent_round s v Hq)) as Hs1.
    simpl in Hs1. rewrite Hs1, length_app, (quiescent_size s Hq). simpl. lia.
Qed.

(** X3.  With [CONCURRENCY_PER_WORKER] zero or negative, [bootstrap] on the
    object [__init__] made calls nothing and leaves [_pages] empty, so that
    every [render] after it raises 'No browser available'. *)
Theorem bootstrap_nothing l script o :
  CONCURRENCY_PER_WORKER ≤ 0 →
  run (bootstrap l init_pool) script = Some o →
  result o = inr tt ∧ trace o = [] ∧ final o = init_pool ∧
  ∀ url l',
    render url l' (final o) =
    Done (inl (RuntimeError "No browser available")) l' (final o).
Proof.
  intros Hneg. unfold bootstrap. rewrite Z2Nat.nonpos by done. simpl.
  intros [= <-]. simpl. split_and!; [done..|].
  intros url l'. by apply render_on_empty.
Qed.

(** ** What [render] keeps, whatever it is answered *)

Lemma manage_page_wf p b l s script o :
  NoDup (p :: _idle_pages s) →
  Forall (λ x, x ∈ _pages s) (_idle_pages s) →
  _pages s ⊆ dom (heap s) →
  (length (_idle_pages s) < _unfinished_tasks s)%nat →
  p ∈ _pages s →
  run (_manage_page p b l s) script = Some o →
  wf (final o).
Proof.
  pose proof (is_fresh (dom (heap s))) as Hfresh.
  intros [Hp Hnd]%NoDup_cons Hin Hheap Hun Hpp.
  rewrite Forall_forall in Hin.
  unfold_manage_page.
  destruct (_unfinished_tasks s) as [|n]; [lia|]; cbn.
  destruct (from_option websocket false (heap s !! p)); destruct b; cbn;
    explore.
  all: intros; simplify_eq/=; unfold wf; simpl;
    rewrite ?dom_insert_L, ?dom_alter_L; split_and!.
  all: try (apply NoDup_app; split_and!; [done| |apply NoDup_singleton]).
  all: rewrite ?Forall_forall; try done; try lia;
    try (rewrite ?length_app; simpl; lia).
  all: set_solver.
Qed.

Lemma render_wf url l s script o :
  wf s →
  run (render url l s) script = Some o →
  wf (final o).
Proof.
  intros Hwf Hrun.
  destruct (decide (_pages s = ∅)) as [Hempty|Hne].
  { rewrite render_on_empty in Hrun by done. by injection Hrun as <-. }
  destruct (_idle_pages s) as [|p q] eqn:Hidle.
  { destruct (render_on_pool url l s Hne) as (k & Hk & Hto & _).
    rewrite Hk in Hrun. simpl in Hrun. unfold queue_reply in Hrun.
    rewrite Hidle, Hto in Hrun. by injection Hrun as <-. }
  destruct (wf_head s p q Hwf Hidle) as (Hp & Hpq & Hdom & _ & Hun).
  destruct (render_parts url l s p q script o Hne Hidle Hrun)
    as (o1 & o2 & Ho1 & Ho2 & _ & _ & -> & _ & _).
  destruct (block_run _ _ _ _ _ Ho1) as ((Hpg & Hid & Hunf & Hheap) & _).
  simpl in Hpg, Hid, Hunf, Hheap.
  destruct Hwf as (Hnd & Hin & Hsub & Hlen). rewrite Hidle in *.
  apply Forall_cons in Hin as [_ Hin]. simpl in Hlen.
  refine (manage_page_wf p _ _ (final o1) _ _ _ _ _ _ _ Ho2);
    rewrite ?Hpg, ?Hid, ?Hunf, ?Hheap; try done; lia.
Qed.

(** X4.  [render] keeps the pool well formed whatever its calls come back
    with, exceptions and cancellation included: afterwards the idle queue
    still has no page twice and only pages of [_pages], every page of
    [_pages] is a live object, and the queue's count of unfinished tasks
    still covers its items. *)
Theorem render_keeps_wf url l s script o :
  wf s →
  run (render url l s) script = Some o →
  wf (final o).
Proof. apply render_wf. Qed.

Lemma manage_page_raises p b l s script o e :
  p ∈ _pages s →
  (0 < _unfinished_tasks s)%nat →
  run (_manage_page p b l s) script = Some o →
  result o = inl e →
  ∃ c, last (trace o) = Some (false, c, RRaise e).
Proof.
  intros Hp Hun.
  unfold_manage_page.
  destruct (_unfinished_tasks s) as [|n]; [lia|]; cbn.
  destruct (from_option websocket false (heap s !! p)); destruct b; cbn;
    explore.
  all: intros; simplify_eq/=; try done.
  all: eexists; reflexivity.
Qed.

(** X5.  An exception that [render] raises on a well-formed pool is one that
    a call it made raised, or a [TemporaryBrowserFailure], or the
    'No browser available' of an empty [_pages]: on its own, the pool code
    ([task_done], [set.remove], [get_nowait]) never fails. *)
Theorem render_raises_only url l s script o e :
  wf s →
  run (render url l s) script = Some o →
  result o = inl e →
  (∃ sh c, (sh, c, RRaise e) ∈ trace o) ∨
  (∃ msg, e = TemporaryBrowserFailure msg) ∨
  (e = RuntimeError "No browser available" ∧ _pages s = ∅).
Proof.
  intros Hwf Hrun Hres.
  destruct (decide (_pages s = ∅)) as [Hempty|Hne].
  { rewrite render_on_empty in Hrun by done. injection Hrun as <-.
    simpl in Hres. injection Hres as <-. by right; right. }
  destruct (_idle_pages s) as [|p q] eqn:Hidle.
  { destruct (render_on_pool url l s Hne) as (k & Hk & Hto & _).
    rewrite Hk in Hrun. simpl in Hrun. unfold queue_reply in Hrun.
    rewrite Hidle, Hto in Hrun. injection Hrun as <-.
    simpl in Hres. injection Hres as <-. right; left. by eexists. }
  destruct (wf_head s p q Hwf Hidle) as (Hp & Hpq & Hdom & _ & Hun).
  destruct (render_parts url l s p q script o Hne Hidle Hrun)
    as (o1 & o2 & Ho1 & Ho2 & Hr & _ & _ & _ & Htr).
  destruct (block_run _ _ _ _ _ Ho1) as ((Hpg & _ & Hunf & _) & _ & _ & Hcl).
  simpl in Hpg, Hunf. rewrite Hr in Hres.
  destruct (result o2) as [e2|[]] eqn:Hr2.
  - injection Hres as <-.
    destruct (manage_page_raises p _ _ _ _ _ e2 ltac:(by rewrite Hpg)
                ltac:(by rewrite Hunf) Ho2 Hr2) as [c Hc].
    left. exists true, c. rewrite Htr.
    apply elem_of_cons. right. apply elem_of_app. right.
    apply list_elem_of_fmap. exists (false, c, RRaise e2). split; [done|].
    apply last_Some in Hc as [tr' ->]. set_solver.
  - destruct (last (trace o1)) as [[[sh c] [v|e1]]|] eqn:Hlast; [| |done].
    + destruct Hcl as [Hcl _]. congruence.
    + destruct (recognized c e1) as [msg|].
      * destruct Hcl as [Hcl _]. rewrite Hcl in Hres. injection Hres as <-.
        right; left. by eexists.
      * destruct Hcl as [Hcl _]. rewrite Hcl in Hres. injection Hres as <-.
        left. exists sh, c. rewrite Htr.
        apply elem_of_cons. right. apply elem_of_app. left.
        apply last_Some in Hlast as [tr' ->]. set_solver.
Qed.

(** X6.  A [render] on a pool with no call in it, with no call of its release
    step raising, leaves a pool with no call in it and as many pages as
    before: the page it took is idle again or has been replaced one for
    one, whether the render succeeded, failed or was cancelled. *)
Theorem render_keeps_pool_full url l s script o :
  quiescent s →
  run (render url l s) script = Some o →
  release_undisturbed (trace o) →
  quiescent (final o) ∧ size (_pages (final o)) = size (_pages s).
Proof.
  intros Hq Hrun Hok.
  pose proof (render_wf url l s script o (quiescent_wf s Hq) Hrun)
    as (Hnd' & _ & Hheap' & _).
  destruct (decide (_pages s = ∅)) as [Hempty|Hne].
  { rewrite render_on_empty in Hrun by done. by injection Hrun as <-. }
  destruct (_idle_pages s) as [|p q] eqn:Hidle.
  { destruct (render_on_pool url l s Hne) as (k & Hk & Hto & _).
    rewrite Hk in Hrun. simpl in Hrun. unfold queue_reply in Hrun.
    rewrite Hidle, Hto in Hrun. by injection Hrun as <-. }
  destruct (wf_head s p q (quiescent_wf s Hq) Hidle)
    as (Hp & Hpq & Hdom & _ & Hun).
  destruct (render_parts url l s p q script o Hne Hidle Hrun)
    as (o1 & o2 & Ho1 & Ho2 & _ & _ & Hfin & _ & Htr).
  destruct (block_run _ _ _ _ _ Ho1) as ((Hpg & Hid & Hunf & Hheap) & _).
  simpl in Hpg, Hid, Hunf, Hheap.
  rewrite Htr in Hok. apply (undisturbed_shielded (_ :: trace o1)) in Hok.
  destruct (manage_page_undisturbed _ _ _ _ _ _ Ho2 Hok)
    as (_ & Hu & Hcase); [by rewrite Hpg|by rewrite Hunf|].
  pose proof (quiescent_size s Hq) as Hsize.
  destruct Hq as (Hnd & Hset & Hsub & Hlen). rewrite Hidle in *.
  rewrite Hfin in *. rewrite Hpg, Hid, Hunf, Hheap in *.
  assert (quiescent (final o2)) as Hq'.
  { unfold quiescent. split_and!; [done| |done|].
    - destruct Hcase as [(_ & -> & ->)|(p' & Hnew & -> & ->)];
        rewrite Hset, list_to_set_app_L; simpl; [set_solver|].
      assert (p' ≠ p) by (intros ->; done).
      apply set_eq. intros x. set_unfold. naive_solver.
    - rewrite Hu, Hlen.
      destruct Hcase as [(_ & -> & _)|(p' & _ & -> & _)];
        rewrite length_app; simpl; lia. }
  split; [done|]. rewrite (quiescent_size _ Hq'), Hsize.
  destruct Hcase as [(_ & -> & _)|(p' & _ & -> & _)];
    rewrite length_app; simpl; lia.
Qed.

(** ** What [render] leaves alone *)

Lemma block_heap_frame p url s script o :
  run (try_except (drive p url) classify (mkLocals false) s) script = Some o →
  (∀ x, x ≠ p → heap (final o) !! x = heap s !! x) ∧
  Forall (λ ev : event, target (op_of (ev.1.2)) = Some p) (trace o).
Proof.
  unfold try_except, drive, bind, wait_for, await, classify, set_reopen, raise, ret.
  cbn.
  do 4 (answer script; [done|..];
        try (by (intros; simplify_eq/=; split;
                 [intros x Hx; by rewrite ?lookup_alter_ne by done
                 |repeat constructor]))).
Qed.

Lemma manage_page_heap_frame p b l s script o :
  run (_manage_page p b l s) script = Some o →
  (∀ x, x ≠ p → x ∈ dom (heap s) → heap (final o) !! x = heap s !! x) ∧
  (∀ x, x ≠ p → x ∈ _pages s → x ∈ _pages (final o)) ∧
  _idle_pages s `prefix_of` _idle_pages (final o) ∧
  Forall (λ ev : event, target (op_of (ev.1.2)) = Some p ∨
                        target (op_of (ev.1.2)) = None) (trace o).
Proof.
  pose proof (is_fresh (dom (heap s))) as Hfresh.
  unfold_manage_page.
  destruct (_unfinished_tasks s) as [|n]; cbn;
    [|destruct (from_option websocket false (heap s !! p)); destruct b; cbn];
    explore.
  all: intros; simplify_eq/=; split_and!.
  all: try (by (repeat constructor; auto)).
  all: try (by apply prefix_app_r).
  all: try (intros x Hx Hdom; rewrite ?dom_alter_L in *;
            rewrite ?lookup_insert_ne by (intros <-; done);
            by rewrite ?lookup_alter_ne by done).
  all: try set_solver.
Qed.

(** X7.  A [render] that took page [p] works on [p] alone: every call it
    makes is on [p] or on the Driver; the Page objects of the other pages
    are untouched, the other pages stay in [_pages], and the idle pages
    behind [p] keep their places at the head of the queue. *)
Theorem render_touches_only_its_page url l s p q script o :
  _pages s ≠ ∅ →
  _idle_pages s = p :: q →
  run (render url l s) script = Some o →
  (∀ x, x ≠ p → x ∈ dom (heap s) → heap (final o) !! x = heap s !! x) ∧
  (∀ x, x ≠ p → x ∈ _pages s → x ∈ _pages (final o)) ∧
  q `prefix_of` _idle_pages (final o) ∧
  Forall (λ ev : event, target (op_of (ev.1.2)) = Some p ∨
                        target (op_of (ev.1.2)) = None) (trace o).
Proof.
  intros Hne Hidle Hrun.
  destruct (render_parts url l s p q script o Hne Hidle Hrun)
    as (o1 & o2 & Ho1 & Ho2 & _ & _ & -> & _ & ->).
  destruct (block_run _ _ _ _ _ Ho1) as ((Hpg & Hid & _ & Hheap) & _).
  destruct (block_heap_frame _ _ _ _ _ Ho1) as (Hh1 & Ht1).
  destruct (manage_page_heap_frame _ _ _ _ _ _ Ho2) as (Hh2 & Hp2 & Hi2 & Ht2).
  simpl in Hpg, Hid, Hheap, Hh1. split_and!.
  - intros x Hx Hdom. rewrite Hh2, Hh1; [done..|by rewrite Hheap].
  - intros x Hx Hin. apply Hp2; [done|by rewrite Hpg].
  - by rewrite <- Hid.
  - constructor; [by right|]. apply Forall_app. split.
    + eapply Forall_impl; [exact Ht1|]. naive_solver.
    + apply Forall_fmap. eapply Forall_impl; [exact Ht2|].
      by intros [[sh c] r].
Qed.

Lemma block_calls p url s script o :
  run (try_except (drive p url) classify (mkLocals false) s) script = Some o →
  script = ((λ ev : event, ev.2) <$> trace o) ++ rest o ∧
  (length (trace o) ≤ 4)%nat.
Proof.
  unfold try_except, drive, bind, wait_for, await, classify, set_reopen, raise, ret.
  cbn.
  do 4 (answer script; [done|..];
        try (by (intros; simplify_eq/=; split; [done|lia]))).
Qed.

Lemma manage_page_calls p b l s script o :
  run (_manage_page p b l s) script = Some o →
  script = ((λ ev : event, ev.2) <$> trace o) ++ rest o ∧
  (length (trace o) ≤ 5)%nat.
Proof.
  unfold_manage_page.
  destruct (_unfinished_tasks s) as [|n]; cbn;
    [|destruct (from_option websocket false (heap s !! p)); destruct b; cbn];
    explore.
  all: intros; simplify_eq/=; split; [done|lia].
Qed.

(** X8.  A [render] that took a page makes at most four calls outside
    [asyncio.shield], those of lines 55-63, and after them at most five
    calls, those of the release step, every one of them inside
    [asyncio.shield]; the replies are used up in that order. *)
Theorem render_shields_release url l s p q script o :
  _pages s ≠ ∅ →
  _idle_pages s = p :: q →
  run (render url l s) script = Some o →
  ∃ body release,
    trace o = (false, WaitFor QueueGet 10000, ROk "") :: body ++ release ∧
    Forall (λ ev : event, ev.1.1 = false) body ∧
    Forall (λ ev : event, ev.1.1 = true) release ∧
    (length body ≤ 4)%nat ∧
    (length release ≤ 5)%nat ∧
    script = ((λ ev : event, ev.2) <$> body) ++
             ((λ ev : event, ev.2) <$> release) ++ rest o.
Proof.
  intros Hne Hidle Hrun.
  destruct (render_parts url l s p q script o Hne Hidle Hrun)
    as (o1 & o2 & Ho1 & Ho2 & _ & _ & _ & -> & ->).
  destruct (block_run _ _ _ _ _ Ho1) as (_ & Hunsh & _).
  destruct (block_calls _ _ _ _ _ Ho1) as (Hs1 & Hl1).
  destruct (manage_page_calls _ _ _ _ _ _ Ho2) as (Hs2 & Hl2).
  exists (trace o1), (shielded <$> trace o2).
  split_and!; [done|done| |done|by rewrite length_fmap|].
  - apply Forall_fmap, Forall_forall. by intros [[sh c] r] _.
  - rewrite Hs1 at 1. rewrite Hs2 at 1. f_equal. f_equal.
    rewrite <- list_fmap_compose. apply list_fmap_ext.
    by intros i [[sh c] r] _.
Qed.

(** ** [shutdown] *)

Lemma close_all_returns ps (oks : list string) l s script :
  length oks = length ps →
  ∃ o, run (close_all ps l s) ((ROk <$> oks) ++ script) = Some o ∧
       result o = inr tt ∧
       locals o = l ∧
       rest o = script ∧
       trace o = close_events ps (ROk <$> oks).
Proof.
  revert oks s. induction ps as [|p ps IH]; intros [|v oks] s Hlen;
    try discriminate.
  - eexists. by split.
  - cbn. destruct (IH oks (effect (Plain (Close p)) (ROk v) s))
      as (o & Hrun & Hres & Hl & Hrest & Htr); [by injection Hlen|].
    unfold effect in Hrun. cbn in Hrun. rewrite Hrun.
    eexists. split; [reflexivity|]. simpl.
    split_and!; [done..|]. by rewrite Htr.
Qed.

Lemma close_all_raises ps (oks : list string) e l s script :
  (length oks < length ps)%nat →
  ∃ o, run (close_all ps l s) ((ROk <$> oks) ++ RRaise e :: script) = Some o ∧
       result o = inl e ∧
       rest o = script ∧
       trace o = close_events ps ((ROk <$> oks) ++ [RRaise e]).
Proof.
  revert oks s. induction ps as [|p ps IH]; intros oks s Hlen;
    [simpl in Hlen; lia|].
  destruct oks as [|v oks]; cbn.
  - eexists. split; [reflexivity|]. split_and!; [reflexivity..|].
    simpl. unfold close_events. simpl. by destruct ps.
  - destruct (IH oks (effect (Plain (Close p)) (ROk v) s))
      as (o & Hrun & Hres & Hrest & Htr); [simpl in Hlen; lia|].
    unfold effect in Hrun. cbn in Hrun. rewrite Hrun.
    eexists. split; [reflexivity|]. simpl.
    split_and!; [done..|]. by rewrite Htr.
Qed.

(** X9.  [shutdown] closes the pages of [_pages] one after the other and
    stops at the first [close()] that raises: it raises that exception, the
    pages after it are not closed, and [self._rdp.shutdown()] is not called.
    Only when every [close()] has returned is the Driver shut down, as the
    last call, and its outcome is the outcome of [shutdown]. *)
Theorem shutdown_calls l s script :
  (∀ (oks : list string) e,
     (length oks < size (_pages s))%nat →
     ∃ o, run (shutdown l s) ((ROk <$> oks) ++ RRaise e :: script) = Some o ∧
          result o = inl e ∧
          rest o = script ∧
          trace o = close_events (elements (_pages s))
                      ((ROk <$> oks) ++ [RRaise e])) ∧
  (∀ (oks : list string) r,
     length oks = size (_pages s) →
     ∃ o, run (shutdown l s) ((ROk <$> oks) ++ r :: script) = Some o ∧
          result o = match r with ROk _ => inr tt | RRaise e => inl e end ∧
          rest o = script ∧
          trace o = close_events (elements (_pages s)) (ROk <$> oks)
                      ++ [(false, Plain RdpShutdown, r)]).
Proof.
  unfold shutdown, bind, get_pool. cbn. split.
  - intros oks e Hlen. rewrite run_bind.
    destruct (close_all_raises (elements (_pages s)) oks e l s script Hlen)
      as (o & -> & Hres & Hrest & Htr).
    simpl. rewrite Hres. simpl. eexists. split; [reflexivity|]. simpl.
    split_and!; [done..|]. by rewrite app_nil_r.
  - intros oks r Hlen. rewrite run_bind.
    destruct (close_all_returns (elements (_pages s)) oks l s (r :: script) Hlen)
      as (o & -> & Hres & Hl & Hrest & Htr).
    simpl. rewrite Hres, Hrest. unfold await. cbn.
    destruct r as [v|e]; cbn; (eexists; split; [reflexivity|]); simpl;
      by rewrite Htr.
Qed.

(** ** The test of line 75 *)

Lemma prefix_cons c a d b :
  String.prefix (String c a) (String d b) =
  if Ascii.ascii_dec c d then String.prefix a b else false.
Proof. reflexivity. Qed.

Lemma append_cons c a b :
  String.append (String c a) b = String c (String.append a b).
Proof. reflexivity. Qed.

Lemma prefix_occurs a b :
  String.prefix a b = true ↔ ∃ post, b = String.append a post.
Proof.
  revert b. induction a as [|c a IH]; intros b.
  - split; [intros _; by exists b|intros _; by destruct b].
  - destruct b as [|d b].
    { split; [discriminate|]. intros [post Hpost].
      rewrite append_cons in Hpost. discriminate. }
    rewrite prefix_cons. destruct (Ascii.ascii_dec c d) as [->|Hne].
    + rewrite IH. split; intros [post Hpost]; exists post.
      * by rewrite append_cons, Hpost.
      * rewrite append_cons in Hpost. congruence.
    + split; [discriminate|]. intros [post Hpost].
      rewrite append_cons in Hpost. congruence.
Qed.

Lemma contains_nil needle :
  contains needle EmptyString = String.prefix needle EmptyString || false.
Proof. reflexivity. Qed.

Lemma contains_cons needle c hay :
  contains needle (String c hay) =
  String.prefix needle (String c hay) || contains needle hay.
Proof. reflexivity. Qed.

Lemma contains_occurs needle hay :
  contains needle hay = true ↔ occurs_in needle hay.
Proof.
  unfold occurs_in. split.
  - induction hay as [|c hay IH].
    + rewrite contains_nil, orb_true_iff. intros [Hpre|?]; [|done].
      apply prefix_occurs in Hpre as [post Hpost].
      by exists EmptyString, post.
    + rewrite contains_cons, orb_true_iff. intros [Hpre|Hrec].
      * apply prefix_occurs in Hpre as [post Hpost].
        by exists EmptyString, post.
      * destruct (IH Hrec) as (pre & post & ->).
        exists (String c pre), post. by rewrite append_cons.
  - intros (pre & post & ->). induction pre as [|c pre IH].
    + change (String.append EmptyString ?x) with x.
      assert (String.prefix needle (String.append needle post) = true) as Hp
        by (apply prefix_occurs; by exists post).
      destruct (String.append needle post);
        rewrite ?contains_nil, ?contains_cons; by rewrite Hp.
    + by rewrite append_cons, contains_cons, IH, orb_true_r.
Qed.

(** X10.  A [RuntimeError] is taken for a browser failure exactly when its
    message has 'unable to perform operation' somewhere in it: then it
    becomes a [TemporaryBrowserFailure] with the same message and [reopen]
    is set; otherwise it is raised again as it is and [reopen] is left. *)
Theorem classify_runtime_error msg l s :
  (occurs_in "unable to perform operation" msg →
   classify (RuntimeError msg) l s =
   Done (inl (TemporaryBrowserFailure msg)) (mkLocals true) s) ∧
  (¬ occurs_in "unable to perform operation" msg →
   classify (RuntimeError msg) l s = Done (inl (RuntimeError msg)) l s).
Proof.
  unfold classify. split; intros Hocc.
  - apply contains_occurs in Hocc. by rewrite Hocc.
  - destruct (contains "unable to perform operation" msg) eqn:Hc; [|done].
    by apply contains_occurs in Hc.
Qed.

(** ** The replacement swap seen from outside *)

(** X11.  While the only page of a pool is being replaced, [_pages] is
    empty: once its [close()] has returned and until [new_page()] has, the
    release step waits with the old page removed, and a [render] that
    arrives then raises 'No browser available' although the pool was
    bootstrapped. *)
Theorem swap_window p b l s pg :
  heap s !! p = Some pg →
  b = true ∨ MAX_ITERATIONS ≤ iteration pg →
  ∃ k,
    recycle p b l s = Susp false (Plain (Close p)) s k ∧
    ∀ c s',
      _pages s' = {[p]} →
      ∃ s'' k',
        k (ROk c) s' = Susp false (Plain NewPage) s'' k' ∧
        _pages s'' = ∅ ∧
        _idle_pages s'' = _idle_pages s' ∧
        ∀ url l',
          render url l' s'' =
          Done (inl (RuntimeError "No browser available")) l' s''.
Proof.
  intros Hpg Hslow.
  unfold recycle, bind, read_page, await. cbn. rewrite Hpg. cbn.
  assert (negb b && (iteration pg <? MAX_ITERATIONS) = false) as ->.
  { destruct Hslow as [->|Hge]; [done|].
    rewrite (proj2 (Z.ltb_ge _ _) Hge). by destruct b. }
  eexists. split; [reflexivity|].
  intros c s' Hpages. cbn. unfold pages_remove. cbn.
  rewrite decide_True by (rewrite Hpages; set_solver). cbn.
  assert (_pages s' ∖ {[p]} = ∅) as Hempty by (rewrite Hpages; set_solver).
  eexists _, _. split; [reflexivity|].
  split_and!; [exact Hempty|reflexivity|].
  intros url l'. apply render_on_empty. exact Hempty.
Qed.

(** ** What the pool keeps when calls fail *)

Lemma SInv_Permutation n s pcs pcs' :
  pcs ≡ₚ pcs' → SInv n s pcs → SInv n s pcs'.
Proof.
  intros Hp (Hnd & Hpg & Hhp & Hun & Hsz). unfold SInv.
  rewrite <- (count_Permutation body_pc _ _ Hp).
  rewrite <- (count_Permutation swap_pc _ _ Hp).
  split_and!; [|intros p..|done|done].
  - by rewrite <- Hp.
  - rewrite <- Hp. apply Hpg.
  - rewrite <- Hp. apply Hhp.
Qed.

Lemma SInv_effect n c r s pcs : SInv n s pcs → SInv n (effect c r s) pcs.
Proof.
  unfold effect. destruct (target (op_of c)) as [p|]; [|done].
  intros (Hnd & Hpg & Hhp & Hun & Hsz). unfold SInv; simpl.
  rewrite dom_alter_L. done.
Qed.

Lemma omap_tail_sublist {A B} (f : A → option B) q R :
  omap f R `sublist_of` omap f (q :: R).
Proof. simpl. destruct (f q); [by apply sublist_cons|done]. Qed.

(** A call that ends takes nothing with it. *)
Lemma SInv_drop n s q R : SInv n s (q :: R) → SInv n s R.
Proof.
  intros (Hnd & Hpg & Hhp & Hun & Hsz). unfold SInv in *.
  rewrite !count_cons in *.
  pose proof (omap_tail_sublist held_pc q R) as Hh.
  pose proof (omap_tail_sublist pending_pc q R) as Hq.
  split_and!; [|intros x Hx..|lia|lia].
  - eapply sublist_NoDup; [exact Hnd|].
    apply sublist_app; [done|]. by apply sublist_app.
  - apply Hpg. rewrite elem_of_app in *. destruct Hx as [Hx|Hx]; [by left|].
    right. eapply elem_of_sublist; eauto.
  - apply Hhp. rewrite !elem_of_app in *.
    destruct Hx as [Hx|[Hx|Hx]]; [by left|right; left|right; right];
      eapply elem_of_sublist; eauto.
Qed.

Lemma SInv_recycle n p b r0 s R :
  SInv n s (PClose p r0 :: R) →
  match m_recycle p b r0 s with
  | Finished _ s' => SInv n s' R
  | Paused q' s' => SInv n s' (q' :: R)
  end.
Proof.
  intros HI. unfold m_recycle. destruct (negb b && _); [|done].
  destruct HI as (Hnd & Hpg & Hhp & Hun & Hsz).
  unfold SInv in *. rewrite !count_cons in *. cbn in *.
  split_and!; [|intros x..| |done].
  - revert Hnd. apply NoDup_Permutation_proper. solve_Permutation.
  - intros Hx. apply Hpg. set_solver.
  - intros Hx. apply Hhp. set_solver.
  - rewrite length_app. simpl. lia.
Qed.

Lemma SInv_release n p b r0 s R :
  SInv n s (PWait p :: R) →
  match m_release p b r0 s with
  | Finished _ s' => SInv n s' R
  | Paused q' s' => SInv n s' (q' :: R)
  end.
Proof.
  intros HI. unfold m_release.
  destruct (_unfinished_tasks s) as [|k] eqn:Hk.
  { by apply SInv_drop in HI. }
  assert (SInv n (mkPool (_pages s) (_idle_pages s) k (heap s))
            (PClose p r0 :: R)) as HI'.
  { destruct HI as (Hnd & Hpg & Hhp & Hun & Hsz).
    unfold SInv in *. rewrite !count_cons in *. cbn in *.
    split_and!; [done..|lia|done]. }
  destruct (from_option websocket false _).
  - destruct b; exact HI'.
  - by apply SInv_recycle.
Qed.

Lemma SInv_raise n p listening e s R :
  SInv n s (PWait p :: R) →
  match m_raise p listening e s with
  | Finished _ s' => SInv n s' R
  | Paused q' s' => SInv n s' (q' :: R)
  end.
Proof.
  intros HI. unfold m_raise.
  destruct e, listening; try by apply SInv_release.
  all: match goal with
       | |- context [contains ?a ?b] => destruct (contains a b)
       end; by apply SInv_release.
Qed.

(** One resumption of one call, with any reply. *)
Lemma SInv_machine n q r s R :
  SInv n s (q :: R) →
  match machine q r s with
  | Finished _ s' => SInv n s' R
  | Paused q' s' => SInv n s' (q' :: R)
  end.
Proof.
  intros HI.
  destruct q as [url|p url|p url|p url|p|p r0|p b r0|p r0|r0|p' r0];
    destruct r as [v|e]; unfold machine; cbn [label_of snd fst].
  - destruct (_idle_pages s) as [|p idle] eqn:Hidle.
    + by apply SInv_drop in HI.
    + destruct HI as (Hnd & Hpg & Hhp & Hun & Hsz).
      unfold SInv in *. rewrite !count_cons in *. cbn in *.
      rewrite Hidle in *. cbn in *.
      split_and!; [|intros x..|lia|done].
      * revert Hnd. apply NoDup_Permutation_proper. solve_Permutation.
      * intros Hx. apply Hpg. set_solver.
      * intros Hx. apply Hhp. set_solver.
  - apply SInv_drop in HI. by destruct e.
  - apply (SInv_effect n (Plain (Attach p)) (ROk v)) in HI. exact HI.
  - apply SInv_raise.
    apply (SInv_effect n (Plain (Attach p)) (RRaise e)) in HI. exact HI.
  - apply (SInv_effect n (Plain (Listen p)) (ROk v)) in HI. exact HI.
  - apply SInv_raise.
    apply (SInv_effect n (Plain (Listen p)) (RRaise e)) in HI. exact HI.
  - apply (SInv_effect n (Plain (Navigate p url)) (ROk v)) in HI. exact HI.
  - apply SInv_raise.
    apply (SInv_effect n (Plain (Navigate p url)) (RRaise e)) in HI. exact HI.
  - apply SInv_release.
    apply (SInv_effect n (Plain (Wait p)) (ROk v)) in HI. exact HI.
  - apply SInv_raise.
    apply (SInv_effect n (Plain (Wait p)) (RRaise e)) in HI. exact HI.
  - apply (SInv_effect n (Plain (Navigate p "about:blank")) (ROk v)) in HI.
    exact HI.
  - apply (SInv_effect n (Plain (Navigate p "about:blank")) (RRaise e)) in HI.
    by apply SInv_drop in HI.
  - apply SInv_recycle.
    apply (SInv_effect n (Plain (Detach p)) (ROk v)) in HI. exact HI.
  - apply (SInv_effect n (Plain (Detach p)) (RRaise e)) in HI.
    by apply SInv_drop in HI.
  - destruct (decide (p ∈ _pages s)) as [Hin|Hout].
    2:{ apply (SInv_effect n (Plain (Close p)) (ROk v)) in HI.
        by apply SInv_drop in HI. }
    destruct HI as (Hnd & Hpg & Hhp & Hun & Hsz).
    unfold SInv in *. rewrite !count_cons in *. cbn in *.
    rewrite <- Permutation_middle in Hnd. apply NoDup_cons in Hnd as [Hp Hnd].
    rewrite dom_alter_L.
    split_and!; [done|intros x..|done|].
    + intros Hx. rewrite elem_of_difference. split; [apply Hpg; set_solver|].
      set_solver.
    + intros Hx. apply Hhp. set_solver.
    + assert (size (_pages s) = S (size (_pages s ∖ {[p]}))) as Hs.
      { rewrite (union_difference_L {[p]} (_pages s)) at 1 by set_solver.
        rewrite size_union by set_solver. by rewrite size_singleton. }
      rewrite Hs in Hsz. unfold count in *. simpl. lia.
  - apply (SInv_effect n (Plain (Close p)) (RRaise e)) in HI.
    by apply SInv_drop in HI.
  - destruct HI as (Hnd & Hpg & Hhp & Hun & Hsz).
    unfold SInv in *. rewrite !count_cons in *. cbn in *.
    pose proof (is_fresh (dom (heap s))) as Hfresh.
    rewrite dom_insert_L.
    split_and!; [|done|intros x|done|done].
    + rewrite (assoc_L (++)), <- Permutation_middle, <- (assoc_L (++)).
      apply NoDup_cons. split; [|done].
      intros Hin. by apply Hfresh, Hhp.
    + rewrite (assoc_L (++)), elem_of_app, elem_of_cons, elem_of_union.
      intros [Hx|[->|Hx]]; [right|left|right]; try apply Hhp; set_solver.
  - by apply SInv_drop in HI.
  - destruct HI as (Hnd & Hpg & Hhp & Hun & Hsz).
    unfold SInv in *. rewrite !count_cons in *. cbn in *.
    rewrite (assoc_L (++)), <- Permutation_middle in Hnd.
    split_and!; [|intros x..| |].
    + revert Hnd. apply NoDup_Permutation_proper. solve_Permutation.
    + intros Hx. rewrite elem_of_union.
      rewrite !elem_of_app, list_elem_of_singleton in Hx.
      pose proof (Hpg x) as Hpx. rewrite elem_of_app in Hpx.
      rewrite elem_of_singleton. naive_solver.
    + intros Hx. apply Hhp. set_solver.
    + rewrite length_app. simpl. lia.
    + pose proof (size_union_alt {[p']} (_pages s)) as Hsu.
      rewrite size_singleton in Hsu.
      pose proof (subseteq_size (_pages s ∖ {[p']}) (_pages s)
                    ltac:(set_solver)) as Hle.
      unfold count in *. simpl in *. lia.
  - by apply SInv_drop in HI.
Qed.

Lemma SInv_idle_call n s url pcs :
  SInv n s pcs → SInv n s (PAcquire url :: pcs).
Proof.
  intros (Hnd & Hpg & Hhp & Hun & Hsz). unfold SInv.
  rewrite !count_cons. cbn. done.
Qed.

Lemma Safe_settle n m st keep drop keep_pcs drop_pcs :
  sim m st →
  match st with
  | Finished _ s' => SInv n s' drop_pcs
  | Paused q s' => SInv n s' (keep_pcs q)
  end →
  Forall2 at_pc drop drop_pcs →
  (∀ t q, at_pc t q → Forall2 at_pc (keep t) (keep_pcs q)) →
  Safe n (settle m keep drop).
Proof.
  intros Hsim HI Hdrop Hkeep. destruct m as [r l s|sh c s k]; simpl in *.
  - subst st. by exists drop_pcs.
  - destruct Hsim as (q & -> & Hlab & Hk).
    exists (keep_pcs q). split; [|done]. apply Hkeep. by split.
Qed.

Lemma Safe_action n cfg a cfg' :
  Safe n cfg → do_action cfg a = Some cfg' → Safe n cfg'.
Proof.
  intros (pcs & Hts & HI) Hdo. destruct a as [url|i r]; simpl in *.
  - injection Hdo as <-.
    apply (Safe_settle n _ (m_start url (pool cfg)) _ _ (λ q, pcs ++ [q]) pcs);
      [apply render_sim| |done|].
    + unfold m_start. destruct (decide _); [done|].
      apply (SInv_Permutation n _ (PAcquire url :: pcs));
        [|by apply SInv_idle_call].
      by rewrite Permutation_cons_append.
    + intros t q Hq. apply Forall2_app; [done|]. by constructor.
  - destruct (tasks cfg !! i) as [t|] eqn:Ht; [|done].
    destruct (admissible _ _ _); [|done]. injection Hdo as <-.
    destruct (Forall2_lookup_l _ _ _ _ _ Hts Ht) as (q & Hq & Hlab & Hk).
    assert (SInv n (pool cfg) (q :: delete i pcs)) as HI'.
    { by apply (SInv_Permutation n _ pcs); [apply delete_Permutation|]. }
    apply (Safe_settle n _ (machine q r (pool cfg)) _ _
             (λ q', <[i:=q']> pcs) (delete i pcs)); [apply Hk| | |].
    + pose proof (SInv_machine n q r (pool cfg) (delete i pcs) HI') as Hm.
      destruct (machine q r (pool cfg)) as [r' s'|q' s']; [done|].
      apply (SInv_Permutation n _ (q' :: delete i pcs)); [|done].
      symmetry. apply insert_Permutation. by eapply lookup_lt_Some.
    + by apply Forall2_delete.
    + intros t' q' Hq'. by apply Forall2_insert.
Qed.

Lemma Safe_exec n acts cfg cfg' :
  Safe n cfg → exec cfg acts = Some cfg' → Safe n cfg'.
Proof.
  revert cfg. induction acts as [|a acts IH]; intros cfg HI Hex; simpl in *.
  - by injection Hex as <-.
  - destruct (do_action cfg a) as [cfg1|] eqn:Hdo; [|done].
    apply (IH cfg1); [by eapply Safe_action|done].
Qed.

(** [bootstrap], however it ends, leaves at most one more idle page per
    round. *)
Lemma SInv_bootstrap_loop k n l s script o :
  SInv n s [] →
  run (bootstrap_loop k l s) script = Some o →
  SInv (n + k) (final o) [].
Proof.
  revert n s script o. induction k as [|k IH]; intros n s script o HI Hrun.
  - simpl in Hrun. injection Hrun as <-. simpl. by rewrite Nat.add_0_r.
  - simpl in Hrun. destruct script as [|[tab_id|e] script]; [done| |].
    + cbn in Hrun. destruct (run _ script) as [o'|] eqn:Hrun'; [|done].
      injection Hrun as <-. simpl in *.
      replace (n + S k)%nat with (S n + k)%nat by lia.
      eapply IH; [|exact Hrun'].
      destruct HI as (Hnd & Hpg & Hhp & Hun & Hsz). unfold SInv in *. cbn in *.
      rewrite !app_nil_r in *.
      pose proof (is_fresh (dom (heap s))) as Hfresh.
      set (p := fresh (dom (heap s))) in *.
      assert (p ∉ _idle_pages s) by (intros Hin; by apply Hfresh, Hhp).
      unfold count in *. simpl in *. rewrite dom_insert_L.
      split_and!; [|intros x..| |].
      * apply NoDup_app. split_and!; [done|set_solver|apply NoDup_singleton].
      * intros Hx. apply elem_of_app in Hx as [Hx|Hx]; set_solver.
      * intros Hx. apply elem_of_app in Hx as [Hx|Hx]; set_solver.
      * rewrite length_app. simpl. lia.
      * pose proof (size_union_alt {[p]} (_pages s)) as Hsu.
        rewrite size_singleton in Hsu.
        pose proof (subseteq_size (_pages s ∖ {[p]}) (_pages s)
                      ltac:(set_solver)) as Hle.
        lia.
    + cbn in Hrun. injection Hrun as <-. simpl.
      destruct HI as (Hnd & Hpg & Hhp & Hun & Hsz). unfold SInv in *.
      split_and!; [done..|lia].
Qed.

Lemma SInv_init : SInv 0 init_pool [].
Proof.
  unfold SInv, init_pool, count; simpl.
  split_and!; [constructor|set_solver|set_solver|done|done].
Qed.

(** Every configuration the scheduler can reach from a pool that [bootstrap]
    worked on is safe. *)
Lemma Safe_reachable script o acts cfg :
  run (bootstrap init_locals init_pool) script = Some o →
  exec (mkConfig (final o) []) acts = Some cfg →
  Safe (Z.to_nat CONCURRENCY_PER_WORKER) cfg.
Proof.
  intros Hboot Hex.
  eapply Safe_exec; [|exact Hex].
  exists []. split; [constructor|]. simpl.
  apply (SInv_bootstrap_loop _ 0 _ _ _ _ SInv_init Hboot).
Qed.

Lemma at_pc_serving ts pcs :
  Forall2 at_pc ts pcs →
  serving ts = count body_pc pcs ∧
  (past_acquire ts ≤ length (omap held_pc pcs) + count swap_pc pcs)%nat.
Proof.
  unfold serving, past_acquire.
  induction 1 as [|t q ts pcs [Hlab _] _ [IH1 IH2]]; [by split|].
  rewrite !count_cons, IH1. unfold in_body at 1, waiting_for_page at 1.
  assert (t_shield t = (label_of q).1 ∧ t_call t = (label_of q).2) as [-> ->]
    by (by rewrite Hlab).
  split.
  - f_equal. by destruct q.
  - destruct q; cbn in *; lia.
Qed.

(** X12.  Whatever the calls to the browser come back with, and however
    [bootstrap] ended (it may have failed part-way): at every point at which
    the scheduler has control, no page is in the idle queue twice, none is
    with two calls, none is both idle and with a call, every one of them is
    in [_pages], the queue counts at least one unfinished task for each idle
    page and each call between lines 55 and 64, and [_pages] together with
    the replacements in progress never exceeds [CONCURRENCY_PER_WORKER]. *)
Theorem pool_safe_whatever_fails script o acts cfg :
  run (bootstrap init_locals init_pool) script = Some o →
  exec (mkConfig (final o) []) acts = Some cfg →
  NoDup (_idle_pages (pool cfg) ++ checked_out (tasks cfg)) ∧
  (∀ p, p ∈ _idle_pages (pool cfg) ++ checked_out (tasks cfg) →
        p ∈ _pages (pool cfg)) ∧
  (length (_idle_pages (pool cfg)) + serving (tasks cfg)
     ≤ _unfinished_tasks (pool cfg))%nat ∧
  (size (_pages (pool cfg)) + swaps (tasks cfg)
     ≤ Z.to_nat CONCURRENCY_PER_WORKER)%nat.
Proof.
  intros Hboot Hex.
  destruct (Safe_reachable _ _ _ _ Hboot Hex) as (pcs & Hts & HI).
  destruct (at_pc_held _ _ Hts) as [-> ->].
  destruct (at_pc_serving _ _ Hts) as [-> _].
  destruct HI as (Hnd & Hpg & Hhp & Hun & Hsz).
  rewrite (assoc_L (++)) in Hnd. apply NoDup_app in Hnd as (Hnd & _ & _).
  done.
Qed.

(** X13.  At most [CONCURRENCY_PER_WORKER] calls of [render] are past line 49
    at the same time, whatever fails; the others wait for a page. *)
Theorem renders_in_progress_bounded script o acts cfg :
  run (bootstrap init_locals init_pool) script = Some o →
  exec (mkConfig (final o) []) acts = Some cfg →
  (past_acquire (tasks cfg) ≤ Z.to_nat CONCURRENCY_PER_WORKER)%nat.
Proof.
  intros Hboot Hex.
  destruct (Safe_reachable _ _ _ _ Hboot Hex) as (pcs & Hts & HI).
  destruct (at_pc_serving _ _ Hts) as [_ Hpast].
  destruct HI as (Hnd & Hpg & Hhp & Hun & Hsz).
  rewrite (assoc_L (++)) in Hnd. apply NoDup_app in Hnd as (Hnd & _ & _).
  apply NoDup_app in Hnd as (_ & _ & Hnd).
  assert (length (omap held_pc pcs) ≤ size (_pages (pool cfg)))%nat as Hle.
  { rewrite <- (size_list_to_set (C:=gset ref)) by done.
    apply subseteq_size. intros p Hp. apply Hpg.
    rewrite elem_of_list_to_set in Hp. set_solver. }
  lia.
Qed.

(** ** What a [render] that returns has done *)

Lemma block_returns p url s script o html :
  run (try_except (drive p url) classify (mkLocals false) s) script = Some o →
  result o = inr html →
  reopen (locals o) = false ∧
  ∃ a b c,
    trace o = [(false, Plain (Attach p), ROk a);
               (false, WaitFor (Listen p) 1000, ROk b);
               (false, Plain (Navigate p url), ROk c);
               (false, WaitFor (Wait p) (PRERENDER_TIMEOUT * 1000), ROk html)].
Proof.
  unfold try_except, drive, bind, wait_for, await, classify, set_reopen, raise, ret.
  cbn.
  do 4 (answer script; [done|..];
        try (by (intros; simplify_eq/=))).
  intros; simplify_eq/=. split; [done|]. by eexists _, _, _.
Qed.

Lemma manage_page_returns p b l s script o :
  run (_manage_page p b l s) script = Some o →
  result o = inr tt →
  Forall (λ ev : event, is_ok (ev.2) = true) (trace o).
Proof.
  unfold_manage_page.
  destruct (_unfinished_tasks s) as [|n]; cbn;
    [|destruct (from_option websocket false (heap s !! p)); destruct b; cbn];
    explore.
  all: intros; simplify_eq/=; repeat constructor.
Qed.

(** X15.  [render] returns a document only when all went well: the page at
    the head of the queue was attached, listened to within one second, sent
    to [url] and waited for within [PRERENDER_TIMEOUT] seconds, in that
    order and each time without an exception; the document is what
    [page.wait] returned; the page is not marked for replacement; and no call
    of the release step raised. *)
Theorem render_returns_html url l s p q script o html :
  _pages s ≠ ∅ →
  _idle_pages s = p :: q →
  run (render url l s) script = Some o →
  result o = inr html →
  reopen (locals o) = false ∧
  ∃ a b c release,
    trace o = [(false, WaitFor QueueGet 10000, ROk "");
               (false, Plain (Attach p), ROk a);
               (false, WaitFor (Listen p) 1000, ROk b);
               (false, Plain (Navigate p url), ROk c);
               (false, WaitFor (Wait p) (PRERENDER_TIMEOUT * 1000), ROk html)]
              ++ release ∧
    Forall (λ ev : event, ev.1.1 = true ∧ is_ok (ev.2) = true) release.
Proof.
  intros Hne Hidle Hrun Hres.
  destruct (render_parts url l s p q script o Hne Hidle Hrun)
    as (o1 & o2 & Ho1 & Ho2 & Hr & Hl & _ & _ & ->).
  rewrite Hres in Hr.
  destruct (result o2) as [e|[]] eqn:Hr2; [done|].
  symmetry in Hr.
  destruct (block_returns _ _ _ _ _ _ Ho1 Hr) as (Hre & a & b & c & ->).
  destruct (manage_page_frame _ _ _ _ _ _ Ho2) as (Hl2 & _).
  pose proof (manage_page_returns _ _ _ _ _ _ Ho2 Hr2) as Hok.
  split; [by rewrite Hl, Hl2|].
  exists a, b, c, (shielded <$> trace o2). split; [done|].
  apply Forall_fmap. eapply Forall_impl; [exact Hok|].
  by intros [[sh c'] r].
Qed.
End Properties.

(** * The theorems at work *)

Lemma demo_pool_wf : wf demo_pool.
Proof. unfold wf. split_and!; by apply (bool_decide_unpack _). Defined.

Lemma demo_taken_wf pg : wf (demo_taken pg).
Proof.
  unfold wf. simpl. rewrite dom_insert_L.
  split_and!; by apply (bool_decide_unpack _).
Defined.

(** C7 at the state [__init__] leaves: [render] before [bootstrap]. *)
Lemma render_no_browser_witness :
  _pages init_pool = ∅ ∧
  render (H:=demo_env) "http://a/" init_locals init_pool =
  Done (inl (RuntimeError "No browser available")) init_locals init_pool.
Proof.
  split; [reflexivity|].
  apply (render_no_browser (H:=demo_env) "http://a/" init_locals init_pool).
  reflexivity.
Defined.

(** C8 on the bootstrapped pool. *)
Lemma render_acquire_witness :
  _pages demo_pool ≠ ∅ ∧
  ∃ k,
    render (H:=demo_env) "http://a/" init_locals demo_pool =
      Susp false (WaitFor QueueGet 10000) demo_pool k ∧
    (∀ s', k (RRaise TimeoutError) s' =
           Done (inl (TemporaryBrowserFailure "No Chrome page available in 10s"))
                init_locals s') ∧
    (∀ v s' p idle,
       _idle_pages s' = p :: idle →
       k (ROk v) s' =
       serve (H:=demo_env) p "http://a/" init_locals
             (mkPool (_pages s') idle (_unfinished_tasks s') (heap s'))).
Proof.
  assert (_pages demo_pool ≠ ∅) as Hne.
  { apply (bool_decide_unpack _). by vm_compute. }
  split; [exact Hne|].
  exact (render_acquire (H:=demo_env) "http://a/" init_locals demo_pool Hne).
Defined.

(** C10 on the pool before [bootstrap] and on a pool whose pages are all
    taken. *)
Lemma render_fails_before_acquire_witness :
  run (render (H:=demo_env) "http://a/" init_locals init_pool) [ROk "x"] =
    Some (mkOutcome (inl (RuntimeError "No browser available"))
            init_locals init_pool [] [ROk "x"]) ∧
  run (render (H:=demo_env) "http://a/" init_locals
         (mkPool {[1%positive]} [] 1 demo_heap)) [ROk "x"] =
    Some (mkOutcome
            (inl (TemporaryBrowserFailure "No Chrome page available in 10s"))
            init_locals (mkPool {[1%positive]} [] 1 demo_heap)
            [(false, WaitFor QueueGet 10000, RRaise TimeoutError)] [ROk "x"]).
Proof.
  split.
  - apply (proj1 (render_fails_before_acquire (H:=demo_env) "http://a/"
                    init_locals init_pool [ROk "x"])).
    reflexivity.
  - apply (proj1 (proj2 (render_fails_before_acquire (H:=demo_env) "http://a/"
                    init_locals (mkPool {[1%positive]} [] 1 demo_heap)
                    [ROk "x"]))).
    + apply (bool_decide_unpack _). by vm_compute.
    + reflexivity.
Defined.

(** C2 on the bootstrapped pool: the caller is cancelled while it waits for
    [page.listen()]. *)
Lemma release_on_every_exit_witness :
  wf demo_pool ∧
  _idle_pages demo_pool = 1%positive :: [2%positive] ∧
  is_Some (run (render (H:=demo_env) "http://a/" init_locals demo_pool)
               (ROk "" :: RRaise CancelledError :: replicate 7 (ROk ""))) ∧
  ∀ o,
    run (render (H:=demo_env) "http://a/" init_locals demo_pool)
        (ROk "" :: RRaise CancelledError :: replicate 7 (ROk "")) = Some o →
    release_undisturbed (trace o) →
    _unfinished_tasks (final o) = _unfinished_tasks demo_pool ∧
    ((_idle_pages (final o) = [2%positive] ++ [1%positive] ∧
      _pages (final o) = _pages demo_pool) ∨
     (∃ p', (p' ∉ dom (heap demo_pool)) ∧
            _idle_pages (final o) = [2%positive] ++ [p'] ∧
            _pages (final o) = {[p']} ∪ (_pages demo_pool ∖ {[1%positive]}))).
Proof.
  destruct (release_on_every_exit (H:=demo_env) "http://a/" init_locals
              demo_pool 1%positive [2%positive]
              (ROk "" :: RRaise CancelledError :: replicate 7 (ROk ""))
              demo_pool_wf eq_refl) as [Htotal Hreleased].
  split_and!; [exact demo_pool_wf|reflexivity| |exact Hreleased].
  apply Htotal. simpl. lia.
Defined.

(** C3 on a page whose [listen()] does not come back within the second. *)
Lemma failure_classifier_witness :
  ∃ o,
    run (try_except (drive (H:=demo_env) 1%positive "http://a/")
           (classify) (mkLocals false) (demo_taken demo_fresh))
        [ROk ""; RRaise TimeoutError] = Some o ∧
    result o = inl (TemporaryBrowserFailure "Attach to Chrome page timed out") ∧
    reopen (locals o) = true.
Proof.
  eexists. split; [vm_compute; reflexivity|].
  exact (proj2 (failure_classifier (H:=demo_env) 1%positive "http://a/"
                  init_locals (demo_taken demo_fresh)
                  [ROk ""; RRaise TimeoutError]) _ eq_refl).
Defined.

(** C4 on a page that has served a render: its transport is open. *)
Lemma release_returns_page_witness :
  heap (demo_taken demo_open) !! 1%positive = Some demo_open ∧
  _unfinished_tasks (demo_taken demo_open) = 2%nat ∧
  iteration (settled (H:=demo_env) 1%positive false "" "" demo_open) < 2 ∧
  run (_manage_page (H:=demo_env) 1%positive false init_locals
         (demo_taken demo_open)) [ROk ""; ROk ""] =
  Some (mkOutcome (inr tt) init_locals
          (mkPool {[1%positive; 2%positive]} [2%positive; 1%positive] 2
                  (<[1%positive := mkPage "A" false 0]> (heap (demo_taken demo_open))))
          [(false, Plain (Navigate 1%positive "about:blank"), ROk "");
           (false, Plain (Detach 1%positive), ROk "")]
          []).
Proof.
  split_and!; [reflexivity..|].
  exact (proj1 (release_returns_page (H:=demo_env) 1%positive init_locals
                 (demo_taken demo_open) 1%nat demo_open "" "" []
                 eq_refl eq_refl eq_refl)).
Defined.

(** C5: a page that has served its two renders is replaced, and a page whose
    [listen()] timed out is not in the queue afterwards. *)
Lemma release_replaces_page_witness :
  (heap (demo_taken demo_worn) !! 1%positive = Some demo_worn ∧
   1%positive ∈ _pages (demo_taken demo_worn) ∧
   2 ≤ iteration (settled (H:=demo_env) 1%positive false "" "" demo_worn) ∧
   run (_manage_page (H:=demo_env) 1%positive false init_locals
          (demo_taken demo_worn))
       [ROk ""; ROk ""; ROk ""; ROk "C"; ROk ""] =
   Some (mkOutcome (inr tt) init_locals
           (mkPool ({[3%positive]} ∪ ({[1%positive; 2%positive]} ∖ {[1%positive]}))
                   [2%positive; 3%positive] 2
                   (<[3%positive := mkPage "C" false 0]>
                      (<[1%positive := mkPage "A" false 2]>
                         (heap (demo_taken demo_worn)))))
           [(false, Plain (Navigate 1%positive "about:blank"), ROk "");
            (false, Plain (Detach 1%positive), ROk "");
            (false, Plain (Close 1%positive), ROk "");
            (false, Plain NewPage, ROk "C");
            (false, Plain (Sleep 100), ROk "")]
           [])) ∧
  (∃ o,
     run (render (H:=demo_env) "http://a/" init_locals demo_pool)
         [ROk ""; RRaise TimeoutError; ROk ""; ROk ""; ROk "C"; ROk ""] = Some o ∧
     reopen (locals o) = true ∧
     1%positive ∉ _idle_pages (final o)).
Proof.
  split.
  - split_and!; [reflexivity|by apply (bool_decide_unpack _)|by vm_compute|].
    refine (proj1 (proj1 (release_replaces_page (H:=demo_env)) 1%positive false
                     init_locals (demo_taken demo_worn) 1%nat demo_worn "" "" "" "C" ""
                     [] eq_refl eq_refl _ _)).
    + by apply (bool_decide_unpack _).
    + right. by vm_compute.
  - eexists. split; [vm_compute; reflexivity|]. split; [reflexivity|].
    exact (proj2 (release_replaces_page (H:=demo_env)) "http://a/" init_locals
             demo_pool 1%positive [2%positive]
             [ROk ""; RRaise TimeoutError; ROk ""; ROk ""; ROk "C"; ROk ""]
             _ demo_pool_wf eq_refl eq_refl eq_refl).
Defined.

(** C6 on the bootstrapped pool: page 1 hangs in [page.wait()]. *)
Lemma render_timeout_witness :
  _idle_pages demo_pool = 1%positive :: [2%positive] ∧
  1%positive ∈ _pages demo_pool ∧
  heap demo_pool !! 1%positive = Some (fresh_page "A") ∧
  _unfinished_tasks demo_pool = 2%nat ∧
  run (render (H:=demo_env) "http://a/" init_locals demo_pool)
      [ROk ""; ROk ""; ROk ""; RRaise TimeoutError; ROk ""; ROk ""] =
  Some (mkOutcome (inl TimeoutError) (mkLocals false)
          (mkPool {[1%positive; 2%positive]} [2%positive; 1%positive] 2
                  (<[1%positive := mkPage "A" false 0]> demo_heap))
          [(false, WaitFor QueueGet 10000, ROk "");
           (false, Plain (Attach 1%positive), ROk "");
           (false, WaitFor (Listen 1%positive) 1000, ROk "");
           (false, Plain (Navigate 1%positive "http://a/"), ROk "");
           (false, WaitFor (Wait 1%positive) 30000, RRaise TimeoutError);
           (true, Plain (Navigate 1%positive "about:blank"), ROk "");
           (true, Plain (Detach 1%positive), ROk "")]
          []).
Proof.
  assert (1%positive ∈ _pages demo_pool) as Hin.
  { apply (bool_decide_unpack _). by vm_compute. }
  split_and!; [reflexivity|exact Hin|reflexivity|reflexivity|].
  refine (proj1 (proj2 (render_timeout (H:=demo_env) "http://a/" init_locals
                          demo_pool 1%positive [2%positive] 1%nat
                          (fresh_page "A") "" "" "" "" "" []
                          eq_refl Hin eq_refl eq_refl)) _).
  by vm_compute.
Defined.

(** C9 on the bootstrapped pool. *)
Lemma shutdown_keeps_pool_witness :
  wf demo_pool ∧
  ∃ o,
    run (shutdown (H:=demo_env) init_locals demo_pool) [ROk ""; ROk ""; ROk ""]
      = Some o ∧
    result o = inr tt ∧
    _pages (final o) = _pages demo_pool ∧
    _idle_pages (final o) = [1%positive; 2%positive] ∧
    closed_in (trace o) 1%positive ∧
    closed_in (trace o) 2%positive ∧
    ∃ k k',
      render (H:=demo_env) "http://a/" init_locals (final o)
        = Susp false (WaitFor QueueGet 10000) (final o) k ∧
      ∀ v, k (ROk v) (final o) =
           Susp false (Plain (Attach 1%positive))
                (mkPool (_pages demo_pool) [2%positive]
                        (_unfinished_tasks demo_pool) (heap (final o))) k'.
Proof.
  split; [exact demo_pool_wf|].
  eexists. split; [vm_compute; reflexivity|].
  destruct (shutdown_keeps_pool (H:=demo_env) init_locals demo_pool
              [ROk ""; ROk ""; ROk ""] _ demo_pool_wf eq_refl)
    as (Hpages & Hidle & Hclosed & Hnext).
  assert (∀ p : ref, bool_decide (p ∈ _pages demo_pool) = true →
                     p ∈ _pages demo_pool) as Hin.
  { intros p. apply bool_decide_eq_true_1. }
  split_and!; [reflexivity|exact Hpages|exact Hidle| | |].
  - apply (Hclosed eq_refl). apply Hin. by vm_compute.
  - apply (Hclosed eq_refl). apply Hin. by vm_compute.
  - exact (proj2 (Hnext "http://a/" init_locals 1%positive [2%positive] eq_refl)).
Defined.

(** C1 on the two-page pool, with a replacement in progress. *)
Lemma pool_invariant_witness :
  run (bootstrap (H:=demo_env) init_locals init_pool) [ROk "A"; ROk "B"]
    = Some demo_boot ∧
  all_benign (H:=demo_env) (mkConfig demo_pool []) demo_schedule = true ∧
  match exec (H:=demo_env) (mkConfig demo_pool []) demo_schedule with
  | Some cfg =>
      waiting cfg = [(true, Plain (Navigate 1%positive "about:blank"));
                     (true, Plain (Sleep 100));
                     (false, WaitFor QueueGet 10000)] ∧
      (length (_idle_pages (pool cfg)) + length (checked_out (tasks cfg)))%nat
        = size (_pages (pool cfg)) ∧
      NoDup (_idle_pages (pool cfg)) ∧
      NoDup (checked_out (tasks cfg)) ∧
      (∀ p, p ∈ _idle_pages (pool cfg) → p ∉ checked_out (tasks cfg)) ∧
      (size (_pages (pool cfg)) + swaps (tasks cfg))%nat = 2%nat
  | None => False
  end.
Proof.
  assert (run (bootstrap (H:=demo_env) init_locals init_pool) [ROk "A"; ROk "B"]
            = Some demo_boot) as Hboot by (vm_compute; reflexivity).
  assert (all_benign (H:=demo_env) (mkConfig demo_pool []) demo_schedule = true)
    as Hbenign by (vm_compute; reflexivity).
  split_and!; [exact Hboot|exact Hbenign|].
  destruct (exec (H:=demo_env) (mkConfig demo_pool []) demo_schedule)
    as [cfg|] eqn:Hexec.
  - split.
    + assert (waiting <$> exec (H:=demo_env) (mkConfig demo_pool []) demo_schedule
              = Some [(true, Plain (Navigate 1%positive "about:blank"));
                      (true, Plain (Sleep 100));
                      (false, WaitFor QueueGet 10000)]) as Hw
        by (vm_compute; reflexivity).
      rewrite Hexec in Hw. by injection Hw.
    + exact (pool_invariant (H:=demo_env) [ROk "A"; ROk "B"] demo_boot
               demo_schedule cfg Hboot eq_refl Hexec Hbenign).
  - assert (is_Some (exec (H:=demo_env) (mkConfig demo_pool []) demo_schedule))
      as [cfg Hcfg].
    { apply (bool_decide_unpack _). by vm_compute. }
    rewrite Hexec in Hcfg. discriminate.
Defined.

(** ** Where the spec says more than the code does *)

(** C1 as stated fails.  On a pool of one page, a caller takes the page,
    [attach()] fails with an invalid handshake, and [close()] raises in the
    release step: the call is over, the page is still in [_pages], and it is
    neither idle nor with any call. *)
Lemma pool_invariant_counterexample :
  run (bootstrap (H:=solo_env) init_locals init_pool) [ROk "A"] = Some solo_boot ∧
  match exec (H:=solo_env) (mkConfig solo_pool []) solo_broken_release with
  | Some cfg =>
      tasks cfg = [] ∧
      _idle_pages (pool cfg) = [] ∧
      _pages (pool cfg) = {[1%positive]} ∧
      (length (_idle_pages (pool cfg)) + length (checked_out (tasks cfg)))%nat
        ≠ size (_pages (pool cfg))
  | None => False
  end.
Proof.
  split; [vm_compute; reflexivity|].
  vm_compute. split_and!; [reflexivity..|discriminate].
Qed.

(** C2 as stated fails.  A render that succeeds, whose
    [navigate('about:blank')] in the release step then finds the connection
    closed: the caller gets that exception, and page 1 is neither back in
    the idle queue nor replaced. *)
Lemma release_on_every_exit_counterexample :
  wf demo_pool ∧
  ∃ o,
    run (render (H:=demo_env) "http://a/" init_locals demo_pool)
        [ROk ""; ROk ""; ROk ""; ROk "<html>"; RRaise ConnectionClosed] = Some o ∧
    result o = inl ConnectionClosed ∧
    _idle_pages (final o) = [2%positive] ∧
    _pages (final o) = {[1%positive; 2%positive]} ∧
    dom (heap (final o)) = {[1%positive; 2%positive]}.
Proof.
  split; [exact demo_pool_wf|].
  eexists. split; [vm_compute; reflexivity|].
  split_and!; vm_compute; reflexivity.
Qed.

(** C4 as stated fails.  A render whose [attach()] is refused ends with
    [reopen] false and the page, never connected, goes back to the queue
    with the iteration counter it had; and the release step run on a page
    with its transport closed makes no call and leaves the counter alone. *)
Lemma release_returns_page_counterexample :
  (∃ o,
     run (render (H:=demo_env) "http://a/" init_locals demo_pool)
         [RRaise (OtherError "ConnectionRefusedError")] = Some o ∧
     reopen (locals o) = false ∧
     _idle_pages (final o) = [2%positive; 1%positive] ∧
     iteration <$> heap demo_pool !! 1%positive = Some 0 ∧
     iteration <$> heap (final o) !! 1%positive = Some 0) ∧
  (∃ o,
     run (_manage_page (H:=demo_env) 1%positive false init_locals
            (demo_taken demo_fresh)) [] = Some o ∧
     trace o = [] ∧
     _idle_pages (final o) = [2%positive; 1%positive] ∧
     iteration <$> heap (demo_taken demo_fresh) !! 1%positive = Some 0 ∧
     iteration <$> heap (final o) !! 1%positive = Some 0).
Proof.
  split; eexists; (split; [vm_compute; reflexivity|]);
    split_and!; vm_compute; reflexivity.
Qed.

(** ** The rest of the module at work *)

Lemma init_pool_quiescent : quiescent init_pool.
Proof. unfold quiescent. split_and!; by apply (bool_decide_unpack _). Defined.

Lemma demo_pool_quiescent : quiescent demo_pool.
Proof. unfold quiescent. split_and!; by apply (bool_decide_unpack _). Defined.

Lemma demo_pool_nonempty : _pages demo_pool ≠ ∅.
Proof. apply (bool_decide_unpack _). by vm_compute. Defined.

(** X1: [bootstrap] on the object [__init__] made, the Driver naming its tabs
    "A" and "B". *)
Lemma bootstrap_builds_pool_witness :
  quiescent init_pool ∧
  run (bootstrap (H:=demo_env) init_locals init_pool) [ROk "A"; ROk "B"]
    = Some demo_boot ∧
  quiescent (final demo_boot) ∧
  size (_pages (final demo_boot))
    = (size (_pages init_pool) + Z.to_nat (CONCURRENCY_PER_WORKER (Env:=demo_env)))%nat ∧
  ∃ new, _idle_pages (final demo_boot) = _idle_pages init_pool ++ new ∧
         length new = Z.to_nat (CONCURRENCY_PER_WORKER (Env:=demo_env)) ∧
         ∀ p, p ∈ new → p ∉ dom (heap init_pool).
Proof.
  assert (run (bootstrap (H:=demo_env) init_locals init_pool) [ROk "A"; ROk "B"]
            = Some demo_boot) as Hboot by (vm_compute; reflexivity).
  split_and!; [exact init_pool_quiescent|exact Hboot|..];
    apply (bootstrap_builds_pool (H:=demo_env) init_locals init_pool
             [ROk "A"; ROk "B"] demo_boot init_pool_quiescent Hboot eq_refl).
Defined.

(** X2: the second [new_page()] of [bootstrap] fails. *)
Lemma bootstrap_stops_at_failure_witness :
  quiescent init_pool ∧
  (length ["A"] < Z.to_nat (CONCURRENCY_PER_WORKER (Env:=demo_env)))%nat ∧
  ∃ o, run (bootstrap (H:=demo_env) init_locals init_pool)
           ((ROk <$> ["A"]) ++ RRaise (OtherError "OSError") :: [ROk "B"])
         = Some o ∧
       result o = inl (OtherError "OSError") ∧
       rest o = [ROk "B"] ∧
       length (trace o) = S (length ["A"]) ∧
       quiescent (final o) ∧
       size (_pages (final o)) = (size (_pages init_pool) + length ["A"])%nat.
Proof.
  assert (length ["A"] < Z.to_nat (CONCURRENCY_PER_WORKER (Env:=demo_env)))%nat
    as Hlt by (vm_compute; lia).
  split_and!; [exact init_pool_quiescent|exact Hlt|].
  exact (bootstrap_stops_at_failure (H:=demo_env) ["A"] (OtherError "OSError")
           init_locals init_pool [ROk "B"] init_pool_quiescent Hlt).
Defined.

(** X3: a worker started with [CONCURRENCY_PER_WORKER=0]. *)
Lemma bootstrap_nothing_witness :
  CONCURRENCY_PER_WORKER (Env:=idle_env) ≤ 0 ∧
  ∃ o, run (bootstrap (H:=idle_env) init_locals init_pool) [ROk "A"] = Some o ∧
       result o = inr tt ∧ trace o = [] ∧ final o = init_pool ∧
       ∀ url l',
         render (H:=idle_env) url l' (final o) =
         Done (inl (RuntimeError "No browser available")) l' (final o).
Proof.
  assert (CONCURRENCY_PER_WORKER (Env:=idle_env) ≤ 0) as Hle by (simpl; lia).
  split; [exact Hle|].
  eexists. split; [vm_compute; reflexivity|].
  exact (bootstrap_nothing (H:=idle_env) init_locals [ROk "A"] _ Hle eq_refl).
Defined.

(** X4: [attach()] fails with an invalid handshake and then [close()] raises
    in the release step. *)
Lemma render_keeps_wf_witness :
  wf demo_pool ∧
  ∃ o, run (render (H:=demo_env) "http://a/" init_locals demo_pool)
           [RRaise InvalidHandshake; RRaise (OtherError "OSError")] = Some o ∧
       result o = inl (OtherError "OSError") ∧
       wf (final o).
Proof.
  split; [exact demo_pool_wf|].
  eexists. split; [vm_compute; reflexivity|]. split; [reflexivity|].
  exact (render_keeps_wf (H:=demo_env) "http://a/" init_locals demo_pool
           [RRaise InvalidHandshake; RRaise (OtherError "OSError")] _
           demo_pool_wf eq_refl).
Defined.

(** X5: [attach()] raises an [OSError], and [render] raises it. *)
Lemma render_raises_only_witness :
  wf demo_pool ∧
  ∃ o, run (render (H:=demo_env) "http://a/" init_locals demo_pool)
           [RRaise (OtherError "OSError")] = Some o ∧
       result o = inl (OtherError "OSError") ∧
       ((∃ sh c, (sh, c, RRaise (OtherError "OSError")) ∈ trace o) ∨
        (∃ msg, OtherError "OSError" = TemporaryBrowserFailure msg) ∨
        (OtherError "OSError" = RuntimeError "No browser available" ∧
         _pages demo_pool = ∅)).
Proof.
  split; [exact demo_pool_wf|].
  eexists. split; [vm_compute; reflexivity|]. split; [reflexivity|].
  exact (render_raises_only (H:=demo_env) "http://a/" init_locals demo_pool
           [RRaise (OtherError "OSError")] _ (OtherError "OSError")
           demo_pool_wf eq_refl eq_refl).
Defined.

(** X6: the caller is cancelled while it waits for [page.wait()]. *)
Lemma render_keeps_pool_full_witness :
  quiescent demo_pool ∧
  ∃ o, run (render (H:=demo_env) "http://a/" init_locals demo_pool)
           [ROk ""; ROk ""; ROk ""; RRaise CancelledError; ROk ""; ROk ""]
         = Some o ∧
       result o = inl CancelledError ∧
       release_undisturbed (trace o) ∧
       quiescent (final o) ∧ size (_pages (final o)) = size (_pages demo_pool).
Proof.
  split; [exact demo_pool_quiescent|].
  eexists. split; [vm_compute; reflexivity|]. split; [reflexivity|].
  assert (release_undisturbed
            [(false, WaitFor QueueGet 10000, ROk "");
             (false, Plain (Attach 1%positive), ROk "");
             (false, WaitFor (Listen 1%positive) 1000, ROk "");
             (false, Plain (Navigate 1%positive "http://a/"), ROk "");
             (false, WaitFor (Wait 1%positive) 30000, RRaise CancelledError);
             (true, Plain (Navigate 1%positive "about:blank"), ROk "");
             (true, Plain (Detach 1%positive), ROk "")]) as Hok.
  { unfold release_undisturbed.
    repeat (constructor; [simpl; by intros|]). constructor. }
  split; [exact Hok|].
  exact (render_keeps_pool_full (H:=demo_env) "http://a/" init_locals demo_pool
           [ROk ""; ROk ""; ROk ""; RRaise CancelledError; ROk ""; ROk ""] _
           demo_pool_quiescent eq_refl Hok).
Defined.

(** X7: page 1 is replaced after a closed connection; page 2 is left alone. *)
Lemma render_touches_only_its_page_witness :
  _pages demo_pool ≠ ∅ ∧
  _idle_pages demo_pool = 1%positive :: [2%positive] ∧
  ∃ o, run (render (H:=demo_env) "http://a/" init_locals demo_pool)
           [ROk ""; RRaise ConnectionClosed; ROk ""; ROk ""; ROk "C"; ROk ""]
         = Some o ∧
       _idle_pages (final o) = [2%positive; 3%positive] ∧
       (∀ x, x ≠ 1%positive → x ∈ dom (heap demo_pool) →
             heap (final o) !! x = heap demo_pool !! x) ∧
       (∀ x, x ≠ 1%positive → x ∈ _pages demo_pool → x ∈ _pages (final o)) ∧
       [2%positive] `prefix_of` _idle_pages (final o) ∧
       Forall (λ ev : event, target (op_of (ev.1.2)) = Some 1%positive ∨
                             target (op_of (ev.1.2)) = None) (trace o).
Proof.
  split; [exact demo_pool_nonempty|]. split; [reflexivity|].
  eexists. split; [vm_compute; reflexivity|]. split; [reflexivity|].
  exact (render_touches_only_its_page (H:=demo_env) "http://a/" init_locals
           demo_pool 1%positive [2%positive]
           [ROk ""; RRaise ConnectionClosed; ROk ""; ROk ""; ROk "C"; ROk ""] _
           demo_pool_nonempty eq_refl eq_refl).
Defined.

(** X8: the same run, with one reply left over. *)
Lemma render_shields_release_witness :
  _pages demo_pool ≠ ∅ ∧
  _idle_pages demo_pool = 1%positive :: [2%positive] ∧
  ∃ o, run (render (H:=demo_env) "http://a/" init_locals demo_pool)
           [ROk ""; RRaise ConnectionClosed; ROk ""; ROk ""; ROk "C"; ROk "";
            ROk "left"]
         = Some o ∧
       rest o = [ROk "left"] ∧
       ∃ body release,
         trace o = (false, WaitFor QueueGet 10000, ROk "") :: body ++ release ∧
         Forall (λ ev : event, ev.1.1 = false) body ∧
         Forall (λ ev : event, ev.1.1 = true) release ∧
         (length body ≤ 4)%nat ∧
         (length release ≤ 5)%nat ∧
         [ROk ""; RRaise ConnectionClosed; ROk ""; ROk ""; ROk "C"; ROk "";
          ROk "left"]
         = ((λ ev : event, ev.2) <$> body) ++
           ((λ ev : event, ev.2) <$> release) ++ rest o.
Proof.
  split; [exact demo_pool_nonempty|]. split; [reflexivity|].
  eexists. split; [vm_compute; reflexivity|]. split; [reflexivity|].
  exact (render_shields_release (H:=demo_env) "http://a/" init_locals
           demo_pool 1%positive [2%positive]
           [ROk ""; RRaise ConnectionClosed; ROk ""; ROk ""; ROk "C"; ROk "";
            ROk "left"] _
           demo_pool_nonempty eq_refl eq_refl).
Defined.

(** X9: on the two-page pool, the second [close()] raises; and both return. *)
Lemma shutdown_calls_witness :
  (length ["a"] < size (_pages demo_pool))%nat ∧
  length ["a"; "b"] = size (_pages demo_pool) ∧
  (∃ o, run (shutdown (H:=demo_env) init_locals demo_pool)
            ((ROk <$> ["a"]) ++ RRaise ConnectionClosed :: [ROk "left"])
          = Some o ∧
        result o = inl ConnectionClosed ∧
        rest o = [ROk "left"] ∧
        trace o = close_events (elements (_pages demo_pool))
                    ((ROk <$> ["a"]) ++ [RRaise ConnectionClosed])) ∧
  (∃ o, run (shutdown (H:=demo_env) init_locals demo_pool)
            ((ROk <$> ["a"; "b"]) ++ ROk "" :: [ROk "left"])
          = Some o ∧
        result o = inr tt ∧
        rest o = [ROk "left"] ∧
        trace o = close_events (elements (_pages demo_pool)) (ROk <$> ["a"; "b"])
                    ++ [(false, Plain RdpShutdown, ROk "")]).
Proof.
  assert (length ["a"] < size (_pages demo_pool))%nat as Hlt
    by (vm_compute; lia).
  assert (length ["a"; "b"] = size (_pages demo_pool)) as Hall
    by (vm_compute; reflexivity).
  split_and!; [exact Hlt|exact Hall|..].
  - exact (proj1 (shutdown_calls (H:=demo_env) init_locals demo_pool [ROk "left"])
             ["a"] ConnectionClosed Hlt).
  - exact (proj2 (shutdown_calls (H:=demo_env) init_locals demo_pool [ROk "left"])
             ["a"; "b"] (ROk "") Hall).
Defined.

(** X10: the message the Driver raises, and another one. *)
Lemma classify_runtime_error_witness :
  occurs_in "unable to perform operation"
            "RDP: unable to perform operation on closed tab" ∧
  ¬ occurs_in "unable to perform operation" "No tab" ∧
  classify
    (RuntimeError "RDP: unable to perform operation on closed tab")
    init_locals demo_pool =
  Done (inl (TemporaryBrowserFailure
               "RDP: unable to perform operation on closed tab"))
       (mkLocals true) demo_pool ∧
  classify (RuntimeError "No tab") init_locals demo_pool =
  Done (inl (RuntimeError "No tab")) init_locals demo_pool.
Proof.
  assert (occurs_in "unable to perform operation"
            "RDP: unable to perform operation on closed tab") as Hyes.
  { exists "RDP: ", " on closed tab". reflexivity. }
  assert (¬ occurs_in "unable to perform operation" "No tab") as Hno.
  { intros Hocc. apply contains_occurs in Hocc. vm_compute in Hocc.
    discriminate. }
  split_and!; [exact Hyes|exact Hno|..].
  - exact (proj1 (classify_runtime_error _ init_locals demo_pool)
             Hyes).
  - exact (proj2 (classify_runtime_error _ init_locals demo_pool)
             Hno).
Defined.

(** X11: the one page of the one-page pool is replaced after a failure. *)
Lemma swap_window_witness :
  heap solo_taken !! 1%positive = Some (fresh_page "A") ∧
  (true = true ∨ MAX_ITERATIONS (Env:=solo_env) ≤ iteration (fresh_page "A")) ∧
  ∃ k,
    recycle (H:=solo_env) 1%positive true init_locals solo_taken
      = Susp false (Plain (Close 1%positive)) solo_taken k ∧
    ∀ c s',
      _pages s' = {[1%positive]} →
      ∃ s'' k',
        k (ROk c) s' = Susp false (Plain NewPage) s'' k' ∧
        _pages s'' = ∅ ∧
        _idle_pages s'' = _idle_pages s' ∧
        ∀ url l',
          render (H:=solo_env) url l' s'' =
          Done (inl (RuntimeError "No browser available")) l' s''.
Proof.
  split; [reflexivity|]. split; [by left|].
  exact (swap_window (H:=solo_env) 1%positive true init_locals solo_taken
           (fresh_page "A") eq_refl (or_introl eq_refl)).
Defined.

Lemma demo_schedule_runs :
  is_Some (exec (H:=demo_env) (mkConfig demo_pool []) demo_schedule).
Proof. apply (bool_decide_unpack _). by vm_compute. Defined.

(** X12 on the one-page pool whose page is lost to a [close()] that raised:
    the page is still in [_pages], and neither idle nor with a call. *)
Lemma pool_safe_whatever_fails_witness :
  run (bootstrap (H:=solo_env) init_locals init_pool) [ROk "A"] = Some solo_boot ∧
  match exec (H:=solo_env) (mkConfig (final solo_boot) []) solo_broken_release with
  | Some cfg =>
      NoDup (_idle_pages (pool cfg) ++ checked_out (tasks cfg)) ∧
      (∀ p, p ∈ _idle_pages (pool cfg) ++ checked_out (tasks cfg) →
            p ∈ _pages (pool cfg)) ∧
      (length (_idle_pages (pool cfg)) + serving (tasks cfg)
         ≤ _unfinished_tasks (pool cfg))%nat ∧
      (size (_pages (pool cfg)) + swaps (tasks cfg)
         ≤ Z.to_nat (CONCURRENCY_PER_WORKER (Env:=solo_env)))%nat
  | None => False
  end.
Proof.
  assert (run (bootstrap (H:=solo_env) init_locals init_pool) [ROk "A"]
            = Some solo_boot) as Hboot by (vm_compute; reflexivity).
  split; [exact Hboot|].
  destruct (exec (H:=solo_env) (mkConfig (final solo_boot) []) solo_broken_release)
    as [cfg|] eqn:Hexec.
  - exact (pool_safe_whatever_fails (H:=solo_env) [ROk "A"] solo_boot
             solo_broken_release cfg Hboot Hexec).
  - assert (is_Some (exec (H:=solo_env) (mkConfig (final solo_boot) [])
                       solo_broken_release)) as [cfg Hcfg].
    { apply (bool_decide_unpack _). by vm_compute. }
    rewrite Hexec in Hcfg. discriminate.
Defined.

(** X13 on the two-page pool with three callers: two are past line 49, the
    third waits. *)
Lemma renders_in_progress_bounded_witness :
  run (bootstrap (H:=demo_env) init_locals init_pool) [ROk "A"; ROk "B"]
    = Some demo_boot ∧
  match exec (H:=demo_env) (mkConfig (final demo_boot) []) demo_schedule with
  | Some cfg =>
      length (tasks cfg) = 3%nat ∧
      (past_acquire (tasks cfg)
         ≤ Z.to_nat (CONCURRENCY_PER_WORKER (Env:=demo_env)))%nat
  | None => False
  end.
Proof.
  assert (run (bootstrap (H:=demo_env) init_locals init_pool) [ROk "A"; ROk "B"]
            = Some demo_boot) as Hboot by (vm_compute; reflexivity).
  split; [exact Hboot|].
  destruct (exec (H:=demo_env) (mkConfig (final demo_boot) []) demo_schedule)
    as [cfg|] eqn:Hexec.
  - split.
    + assert ((λ c, length (tasks c)) <$>
                exec (H:=demo_env) (mkConfig (final demo_boot) []) demo_schedule
              = Some 3%nat) as Hw by (vm_compute; reflexivity).
      rewrite Hexec in Hw. by injection Hw.
    + exact (renders_in_progress_bounded (H:=demo_env) [ROk "A"; ROk "B"]
               demo_boot demo_schedule cfg Hboot Hexec).
  - destruct demo_schedule_runs as [cfg Hcfg].
    change (final demo_boot) with demo_pool in Hexec.
    rewrite Hexec in Hcfg. discriminate.
Defined.


(** X15 on the bootstrapped pool: a render that goes through. *)
Lemma render_returns_html_witness :
  _pages demo_pool ≠ ∅ ∧
  _idle_pages demo_pool = 1%positive :: [2%positive] ∧
  ∃ o, run (render (H:=demo_env) "http://a/" init_locals demo_pool)
           [ROk ""; ROk ""; ROk ""; ROk "<html>"; ROk ""; ROk ""] = Some o ∧
       result o = inr "<html>" ∧
       reopen (locals o) = false ∧
       ∃ a b c release,
         trace o = [(false, WaitFor QueueGet 10000, ROk "");
                    (false, Plain (Attach 1%positive), ROk a);
                    (false, WaitFor (Listen 1%positive) 1000, ROk b);
                    (false, Plain (Navigate 1%positive "http://a/"), ROk c);
                    (false, WaitFor (Wait 1%positive)
                              (PRERENDER_TIMEOUT (Env:=demo_env) * 1000),
                     ROk "<html>")]
                   ++ release ∧
         Forall (λ ev : event, ev.1.1 = true ∧ is_ok (ev.2) = true) release.
Proof.
  split; [exact demo_pool_nonempty|]. split; [reflexivity|].
  eexists. split; [vm_compute; reflexivity|]. split; [reflexivity|].
  exact (render_returns_html (H:=demo_env) "http://a/" init_locals demo_pool
           1%positive [2%positive]
           [ROk ""; ROk ""; ROk ""; ROk "<html>"; ROk ""; ROk ""] _ "<html>"
           demo_pool_nonempty eq_refl eq_refl eq_refl).
Defined.
